(** * replace_response: a model of the Caddy response-body replacement handler

    The handler of [handler.go] rewrites response bodies with an ordered
    list of substring or regular-expression replacements, either after
    buffering the whole body or while it streams.  This development embeds
    [Handler.Provision], [Handler.ServeHTTP] and the [replaceWriter] methods
    as state-passing functions over an explicit world (the header map of the
    underlying [http.ResponseWriter] and the chronological list of calls the
    handler makes on its collaborators), and proves the properties the
    specification states about them.

    The packages the handler imports (regexp, golang.org/x/text/transform,
    github.com/icholy/replace, caddyhttp) are interfaces here: type classes
    whose fields are the functions the handler calls. *)

From Stdlib Require Import List String Ascii Strings.Byte ZArith Lia Bool.
From Stdlib Require Import DecimalString DecimalNat.
From stdpp Require Import base option list gmap strings.
Import ListNotations.

Local Open Scope string_scope.
Local Open Scope list_scope.
Local Open Scope Z_scope.

(** ** Go values *)

(** Equality of bytes is decided by [Byte.eqb], so that scans compute. *)
#[export] Instance byte_eq_decision : EqDecision byte.
Proof.
  refine (fun x y =>
    match Byte.eqb x y as b return Byte.eqb x y = b -> Decision (x = y) with
    | true => fun E => left (byte_dec_bl x y E)
    | false => fun E => right _
    end eq_refl).
  intros ->. rewrite (byte_dec_lb eq_refl) in E. discriminate E.
Defined.

(** A Go [error] is modelled by its message ([err.Error()]). *)
Definition error := string.

(** [strconv.Itoa] and the [%d] verb of [fmt], on a non-negative [int]. *)
Definition itoa (n : nat) : string := NilZero.string_of_uint (Nat.to_uint n).

(** Reading a decimal numeral back ([strconv.Atoi] on non-negative input);
    used to state that [itoa] prints the exact decimal value. *)
Definition atoi (s : string) : option nat :=
  match NilZero.uint_of_string s with
  | Some d => Some (Nat.of_uint d)
  | None => None
  end.

(** ** [http.Header] *)

(** [http.Header] is [map[string][]string].  The only key the handler uses
    is the constant ["Content-Length"], which is already in canonical MIME
    form, so [Get], [Set] and [Del] are plain map operations on it. *)
Abbreviation Header := (gmap string (list string)).

Definition Header_Get (h : Header) (key : string) : string :=
  match h !! key with
  | Some (v :: _) => v
  | _ => ""
  end.

Definition Header_Set (h : Header) (key value : string) : Header :=
  <[key := [value]]> h.

Definition Header_Del (h : Header) (key : string) : Header :=
  delete key h.

(** ** The world the handler acts on *)

(** Calls the handler (and the transform package on its behalf) makes on
    the underlying response writer [w] and on the pooled transformer.  The
    two writer calls carry the header map as it stands when they are made:
    that snapshot is what the server can put on the wire. *)
Inductive Call :=
| WriteHeaderCall (status : Z) (hdr : Header)
| WriteCall (data : list byte) (hdr : Header)
| ResetCall
| TransformCall (src : list byte) (atEOF : bool).

Record World := mkWorld {
  header : Header;      (* w.Header(), shared by every wrapper of w *)
  calls : list Call     (* oldest first *)
}.

(** State passing over the world. *)
Definition M (A : Type) : Type := World -> A * World.

Definition ret {A} (a : A) : M A := fun s => (a, s).
Definition bind {A B} (c : M A) (k : A -> M B) : M B :=
  fun s => let (a, s') := c s in k a s'.

Declare Scope go_scope.
Delimit Scope go_scope with go.
Notation "x <- c ;; k" := (bind c (fun x => k))
  (at level 20, c at level 99, k at level 200, only parsing) : go_scope.
Notation "' pat <- c ;; k" := (bind c (fun x => match x with pat => k end))
  (at level 20, pat pattern, c at level 99, k at level 200, only parsing) : go_scope.
Local Open Scope go_scope.

Definition log (c : Call) : M unit :=
  fun s => (tt, mkWorld (header s) (calls s ++ [c])).

(** [w.Header().Get(key)], [w.Header().Set(key, value)], [w.Header().Del(key)] *)
Definition w_Header_Get (key : string) : M string :=
  fun s => (Header_Get (header s) key, s).
Definition w_Header_Set (key value : string) : M unit :=
  fun s => (tt, mkWorld (Header_Set (header s) key value) (calls s)).
Definition w_Header_Del (key : string) : M unit :=
  fun s => (tt, mkWorld (Header_Del (header s) key) (calls s)).

(** [w.WriteHeader(status)] and [w.Write(data)] on the underlying writer. *)
Definition w_WriteHeader (status : Z) : M unit :=
  fun s => log (WriteHeaderCall status (header s)) s.
Definition w_Write (data : list byte) : M unit :=
  fun s => log (WriteCall data (header s)) s.

(** ** Observations on a world *)

(** Body bytes received by the underlying writer, in order. *)
Fixpoint body_of (cs : list Call) : list byte :=
  match cs with
  | [] => []
  | WriteCall d _ :: rest => d ++ body_of rest
  | _ :: rest => body_of rest
  end.

(** The statuses passed to [w.WriteHeader], in order. *)
Fixpoint statuses_of (cs : list Call) : list Z :=
  match cs with
  | [] => []
  | WriteHeaderCall st _ :: rest => st :: statuses_of rest
  | _ :: rest => statuses_of rest
  end.

(** The sources handed to the transformer, in order. *)
Fixpoint transforms_of (cs : list Call) : list (list byte * bool) :=
  match cs with
  | [] => []
  | TransformCall src eof :: rest => (src, eof) :: transforms_of rest
  | _ :: rest => transforms_of rest
  end.

(** The calls made on the underlying writer. *)
Definition is_writer_call (c : Call) : bool :=
  match c with
  | WriteHeaderCall _ _ | WriteCall _ _ => true
  | _ => false
  end.

(** Headers of the response as the server sends it.  [http.ResponseWriter]
    finalizes the headers at the first [WriteHeader] or, failing that, at
    the first [Write] (an implicit [WriteHeader(http.StatusOK)]); when the
    handler returns without either, the server sends the map as it then
    stands. *)
Fixpoint sent_headers_from (cs : list Call) (at_return : Header) : Header :=
  match cs with
  | [] => at_return
  | WriteHeaderCall _ hdr :: _ => hdr
  | WriteCall _ hdr :: _ => hdr
  | _ :: rest => sent_headers_from rest at_return
  end.

Definition sent_headers (s : World) : Header :=
  sent_headers_from (calls s) (header s).

(** No body byte is handed to the writer before a [WriteHeader] call. *)
Fixpoint header_before_body (cs : list Call) : bool :=
  match cs with
  | [] => true
  | WriteHeaderCall _ _ :: _ => true
  | WriteCall d _ :: rest =>
      match d with
      | [] => header_before_body rest
      | _ :: _ => false
      end
  | _ :: rest => header_before_body rest
  end.

(** ** The packages the handler imports *)

(** [regexp], [github.com/icholy/replace] and [golang.org/x/text/transform],
    as far as the handler calls them.  [Transform] abstracts the buffer
    windows of [Transformer.Transform(dst, src, atEOF)]: a pass takes the
    source bytes offered, returns the bytes it emits and the error, and keeps
    what it has not resolved inside the transformer. *)
Class TransformLib := {
  Regexp : Type;
  regexp_Compile : string -> error + Regexp;
  Transformer : Type;
  replace_String : string -> string -> Transformer;
  replace_RegexpString : Regexp -> string -> Transformer;
  transform_Chain : list Transformer -> Transformer;
  Reset : Transformer -> Transformer;
  Transform : Transformer -> list byte -> bool -> Transformer * list byte * option error
}.

(** The interface [http.ResponseWriter] as the upstream handler sees it:
    the header map is the world's, [WriteHeader] and [Write] are the
    wrapper's own. *)
Class ResponseWriter (W : Type) := {
  rw_WriteHeader : W -> Z -> M W;
  rw_Write : W -> list byte -> M W
}.

(** [caddyhttp.ResponseRecorder], built by
    [caddyhttp.NewResponseRecorder(w, respBuf, shouldBuf)] over the underlying
    writer, an emptied buffer and the always-true [shouldBuf]. *)
Class RecorderLib := {
  ResponseRecorder : Type;
  NewResponseRecorder : ResponseRecorder;
  rec_writer :: ResponseWriter ResponseRecorder;
  Buffered : ResponseRecorder -> bool;
  Status : ResponseRecorder -> Z;
  Buffer_Bytes : ResponseRecorder -> list byte
}.

(** What the upstream handler [next] does with the writer it is given, and
    the error it returns. *)
Inductive Action :=
| DoHeaderSet (key value : string)
| DoHeaderDel (key : string)
| DoWriteHeader (status : Z)
| DoWrite (d : list byte).

Record Next := mkNext {
  next_actions : list Action;
  next_err : option error
}.

Definition is_write_action (a : Action) : bool :=
  match a with
  | DoWriteHeader _ | DoWrite _ => true
  | _ => false
  end.

(** [next.ServeHTTP(w, r)] for any implementation of the writer interface. *)
Fixpoint next_ServeHTTP {W} `{ResponseWriter W} (acts : list Action) (w : W) : M W :=
  match acts with
  | [] => ret w
  | DoHeaderSet k v :: rest => _ <- w_Header_Set k v ;; next_ServeHTTP rest w
  | DoHeaderDel k :: rest => _ <- w_Header_Del k ;; next_ServeHTTP rest w
  | DoWriteHeader st :: rest => w' <- rw_WriteHeader w st ;; next_ServeHTTP rest w'
  | DoWrite d :: rest => w' <- rw_Write w d ;; next_ServeHTTP rest w'
  end.

(** ** [handler.go] *)

Section Handler.
Context `{TL : TransformLib} `{RL : RecorderLib}.

(** [type Replacement struct]; [re] is [nil] until [Provision] compiles
    [SearchRegexp]. *)
Record Replacement := mkReplacement {
  Search : string;
  SearchRegexp : string;
  Replace : string;
  re : option Regexp
}.

(** [type Handler struct].  [transformerPool] is [nil] ([None]) until
    [Provision] succeeds; afterwards it holds the idle transformers of the
    [sync.Pool]. *)
Record Handler := mkHandler {
  Replacements : list Replacement;
  Stream : bool;
  transformerPool : option (list Transformer)
}.

Definition set_re (repl : Replacement) (r : Regexp) : Replacement :=
  mkReplacement (Search repl) (SearchRegexp repl) (Replace repl) (Some r).

(** The three [fmt.Errorf] calls of the loop in [Provision]. *)
Definition err_no_search (i : nat) : error :=
  "replacement " +:+ itoa i +:+ ": no search or search_regexp configured".
Definition err_both (i : nat) : error :=
  "replacement " +:+ itoa i +:+
  ": cannot specify both search and search_regexp in same replacement".
Definition err_regexp (i : nat) (err : error) : error :=
  "replacement " +:+ itoa i +:+ ": " +:+ err.

(** The loop [for i, repl := range h.Replacements] of [Provision], from
    index [i] on.  The rules are reached through pointers, so the regexps
    compiled before a failing rule stay set. *)
Fixpoint prepare (i : nat) (repls : list Replacement)
  : list Replacement * option error :=
  match repls with
  | [] => ([], None)
  | repl :: rest =>
      if String.eqb (Search repl) "" && String.eqb (SearchRegexp repl) "" then
        (repls, Some (err_no_search i))
      else if negb (String.eqb (Search repl) "")
              && negb (String.eqb (SearchRegexp repl) "") then
        (repls, Some (err_both i))
      else if negb (String.eqb (SearchRegexp repl) "") then
        match regexp_Compile (SearchRegexp repl) with
        | inl err => (repls, Some (err_regexp i err))
        | inr r =>
            let (rest', e) := prepare (S i) rest in (set_re repl r :: rest', e)
        end
      else
        let (rest', e) := prepare (S i) rest in (repl :: rest', e)
  end.

(** [func (h *Handler) Provision(ctx caddy.Context) error] *)
Definition Provision (h : Handler) : Handler * option error :=
  if Nat.eqb (length (Replacements h)) 0 then
    (h, Some "no replacements configured")
  else
    let (repls, e) := prepare 0 (Replacements h) in
    match e with
    | Some err => (mkHandler repls (Stream h) (transformerPool h), Some err)
    | None => (mkHandler repls (Stream h) (Some []), None)
    end.

(** The [New] function of the pool: one transformer per rule, chained. *)
Definition new_transform (repl : Replacement) : Transformer :=
  match re repl with
  | Some r => replace_RegexpString r (Replace repl)
  | None => replace_String (Search repl) (Replace repl)
  end.

Definition pool_New (h : Handler) : Transformer :=
  transform_Chain (map new_transform (Replacements h)).

(** [sync.Pool.Get] on the list of idle transformers: the first of them if
    there is one, else [New()].  This is one of the behaviours [sync.Pool]
    allows, not the only one: [Get] may hand out any idle item or ignore
    them and call [New], and idle items may be dropped at any time.  The
    statements about [ServeHTTP_pool] therefore hold for every list [pool],
    whatever its first item; [pool_Get_any] and [serves] below give the
    behaviours [sync.Pool] allows in full. *)
Definition pool_Get (h : Handler) (pool : list Transformer)
  : Transformer * list Transformer :=
  match pool with
  | t :: rest => (t, rest)
  | [] => (pool_New h, [])
  end.

(** [sync.Pool.Put]: the transformer joins the idle ones.  [sync.Pool] may
    drop it later; nothing stated of [ServeHTTP_pool] relies on its
    staying. *)
Definition pool_Put (pool : list Transformer) (t : Transformer) : list Transformer :=
  t :: pool.

(** *** The transform package, as the handler drives it *)

Definition t_Reset (t : Transformer) : M Transformer :=
  _ <- log ResetCall ;; ret (Reset t).

Definition t_Transform (t : Transformer) (src : list byte) (atEOF : bool)
  : M (Transformer * list byte * option error) :=
  _ <- log (TransformCall src atEOF) ;; ret (Transform t src atEOF).

(** Modelled from the spec: [transform.Bytes] of golang.org/x/text is not
    under src/.  The one-shot buffered transform is a single pass over the
    whole buffer, delivered as one chunk at end of input, on a reset
    transformer. *)
Definition transform_Bytes (t : Transformer) (b : list byte)
  : M (Transformer * list byte * option error) :=
  t0 <- t_Reset t ;;
  t_Transform t0 b true.

(** Modelled from the spec: [transform.NewWriter], [Writer.Write] and
    [Writer.Close] of golang.org/x/text are not under src/.  The writer is a
    write-sink proxy over [w]: a write passes the chunk through the
    transformer and forwards what is emitted to the sink; close flushes the
    remainder at end of input. *)
Definition transform_NewWriter (t : Transformer) : M Transformer :=
  t_Reset t.

Definition Writer_Write (t : Transformer) (d : list byte)
  : M (Transformer * option error) :=
  ' (t', out, err) <- t_Transform t d false ;;
  _ <- w_Write out ;;
  ret (t', err).

Definition Writer_Close (t : Transformer) : M (Transformer * option error) :=
  ' (t', out, err) <- t_Transform t [] true ;;
  _ <- w_Write out ;;
  ret (t', err).

(** *** [replaceWriter] *)

(** [type replaceWriter struct]: the wrapped writer is the world's, [tw] is
    the transform writer (its sink is the same underlying writer). *)
Record replaceWriter := mkReplaceWriter {
  wroteHeader : bool;
  tw : Transformer
}.

(** [func (fw *replaceWriter) WriteHeader(status int)] *)
Definition fw_WriteHeader (fw : replaceWriter) (status : Z) : M replaceWriter :=
  if wroteHeader fw then ret fw
  else
    _ <- w_Header_Del "Content-Length" ;;
    _ <- w_WriteHeader status ;;
    ret (mkReplaceWriter true (tw fw)).

(** [func (fw *replaceWriter) Write(d []byte) (int, error)] *)
Definition fw_Write (fw : replaceWriter) (d : list byte) : M replaceWriter :=
  fw1 <- (if negb (wroteHeader fw) then fw_WriteHeader fw 200 else ret fw) ;;
  ' (t, _) <- Writer_Write (tw fw1) d ;;
  ret (mkReplaceWriter (wroteHeader fw1) t).

(** The interface guard of [handler.go]: a [replaceWriter] is an
    [http.ResponseWriter]. *)
#[export] Instance replaceWriter_ResponseWriter : ResponseWriter replaceWriter :=
  {| rw_WriteHeader := fw_WriteHeader; rw_Write := fw_Write |}.

(** *** [ServeHTTP] *)

(** The buffered branch after [next] has returned without error. *)
Definition serve_buffered (tr : Transformer) (rec : ResponseRecorder)
  : M (Transformer * option error) :=
  if negb (Buffered rec) then ret (tr, None)
  else
    ' (t, result, err) <- transform_Bytes tr (Buffer_Bytes rec) ;;
    match err with
    | Some e => ret (t, Some e)
    | None =>
        cl <- w_Header_Get "Content-Length" ;;
        _ <- (if negb (String.eqb cl "")
              then w_Header_Set "Content-Length" (itoa (length result))
              else ret tt) ;;
        _ <- (if 0 <? Status rec then w_WriteHeader (Status rec) else ret tt) ;;
        _ <- w_Write result ;;
        ret (t, None)
    end.

(** [func (h *Handler) ServeHTTP(w, r, next) error], given the idle
    transformers of the pool; returns the pool after the deferred [Put] and
    the error.  The deferred calls run in reverse order: [fw.tw.Close()]
    before [h.transformerPool.Put(tr)]. *)
Definition ServeHTTP_pool (h : Handler) (pool : list Transformer) (next : Next)
  : M (list Transformer * option error) :=
  let (tr, idle) := pool_Get h pool in
  tr <- t_Reset tr ;;
  if Stream h then
    t <- transform_NewWriter tr ;;
    fw <- next_ServeHTTP (next_actions next) (mkReplaceWriter false t) ;;
    ' (t', _) <- Writer_Close (tw fw) ;;
    ret (pool_Put idle t', next_err next)
  else
    rec <- next_ServeHTTP (next_actions next) NewResponseRecorder ;;
    match next_err next with
    | Some err => ret (pool_Put idle tr, Some err)
    | None =>
        ' (t', err) <- serve_buffered tr rec ;;
        ret (pool_Put idle t', err)
    end.

(** [ServeHTTP] on a handler; [None] is the nil-pointer panic of a handler
    that was never provisioned. *)
Definition ServeHTTP (h : Handler) (next : Next) (s : World)
  : option (Handler * option error * World) :=
  match transformerPool h with
  | None => None
  | Some pool =>
      let '(pool', err, s') := ServeHTTP_pool h pool next s in
      Some (mkHandler (Replacements h) (Stream h) (Some pool'), err, s')
  end.

End Handler.

(** ** [caddyfile.go] *)

(** [caddyfile.Dispenser], as far as [UnmarshalCaddyfile] calls it.  The
    cursor methods return their boolean and the dispenser they leave;
    [d_AllArgs2] is [d.AllArgs(&a, &b)] on two targets, given their current
    values. *)
Class DispenserLib := {
  Dispenser : Type;
  d_Next : Dispenser -> bool * Dispenser;
  d_NextArg : Dispenser -> bool * Dispenser;
  d_Val : Dispenser -> string;
  d_AllArgs2 : Dispenser -> string -> string -> bool * string * string * Dispenser;
  d_Nesting : Dispenser -> Z;
  d_NextBlock : Dispenser -> Z -> bool * Dispenser;
  d_Err : Dispenser -> string -> error;
  d_ArgErr : Dispenser -> error
}.

(** How a loop of [UnmarshalCaddyfile] is left: by a [return], by its
    condition turning false, or (in the model only) because the bound on the
    number of iterations was reached. *)
Inductive Exit :=
| Return (err : option error)
| Fallthrough
| OutOfFuel.

Section Caddyfile.
Context `{TL : TransformLib} `{DL : DispenserLib}.

(** [h.Replacements = append(h.Replacements, &repl)] *)
Definition append_replacement (h : Handler) (repl : Replacement) : Handler :=
  mkHandler (Replacements h ++ [repl]) (Stream h) (transformerPool h).

(** The closure [line] of [UnmarshalCaddyfile]: one line of the directive,
    with the cursor on its first token. *)
Definition line (h : Handler) (d : Dispenser)
  : Handler * Dispenser * option error :=
  if String.eqb (d_Val d) "stream" then
    if Stream h then (h, d, Some (d_Err d "streaming already enabled"))
    else
      let h1 := mkHandler (Replacements h) true (transformerPool h) in
      let (more, d1) := d_NextArg d in
      if more then (h1, d1, Some (d_ArgErr d1)) else (h1, d1, None)
  else if String.eqb (d_Val d) "re" then
    let '(ok, search_regexp, replace, d1) := d_AllArgs2 d "" "" in
    if negb ok then (h, d1, Some (d_ArgErr d1))
    else
      (append_replacement h (mkReplacement "" search_regexp replace None), d1, None)
  else
    let search := d_Val d in
    let (ok, d1) := d_NextArg d in
    if negb ok then (h, d1, Some (d_ArgErr d1))
    else
      let replace := d_Val d1 in
      let (more, d2) := d_NextArg d1 in
      if more then (h, d2, Some (d_ArgErr d2))
      else
        (append_replacement h (mkReplacement search "" replace None), d2, None).

(** The inner loop [for nesting := d.Nesting(); d.NextBlock(nesting); ],
    given [nesting]; at most [fuel] iterations. *)
Fixpoint block_loop (fuel : nat) (nesting : Z) (h : Handler) (d : Dispenser)
  : Handler * Dispenser * Exit :=
  match fuel with
  | O => (h, d, OutOfFuel)
  | S n =>
      let (more, d1) := d_NextBlock d nesting in
      if more then
        let '(h1, d2, e) := line h d1 in
        match e with
        | Some err => (h1, d2, Return (Some err))
        | None => block_loop n nesting h1 d2
        end
      else (h, d1, Fallthrough)
  end.

(** [func (h *Handler) UnmarshalCaddyfile(d *caddyfile.Dispenser) error]:
    the loop [for d.Next()], at most [fuel] iterations (the dispenser holds
    finitely many tokens; the bound stands for their number). *)
Fixpoint UnmarshalCaddyfile (fuel : nat) (h : Handler) (d : Dispenser)
  : Handler * Dispenser * Exit :=
  match fuel with
  | O => (h, d, OutOfFuel)
  | S n =>
      let (more, d1) := d_Next d in
      if negb more then (h, d1, Return None)
      else
        let (arg, d2) := d_NextArg d1 in
        let '(h1, d3, e) := if arg then line h d2 else (h, d2, None) in
        match e with
        | Some err => (h1, d3, Return (Some err))
        | None =>
            match block_loop n (d_Nesting d3) h1 d3 with
            | (h2, d4, Fallthrough) => UnmarshalCaddyfile n h2 d4
            | r => r
            end
        end
  end.

(** [func parseCaddyfile(h httpcaddyfile.Helper)]: unmarshal into
    [new(Handler)]. *)
Definition parseCaddyfile (fuel : nat) (d : Dispenser)
  : Handler * Dispenser * Exit :=
  UnmarshalCaddyfile fuel (mkHandler [] false None) d.

End Caddyfile.

(** ** The replacement engine *)

(** The regular-expression side of the engine: [regexp.Compile] and one
    scan of a regexp stage over its window (Pending Buffer followed by the
    new bytes), which returns the bytes emitted and the bytes kept. *)
Class RegexpLib := {
  RE : Type;
  RE_Compile : string -> error + RE;
  RE_scan : RE -> list byte -> list byte -> bool -> list byte * list byte
}.

Section Engine.
Context `{RX : RegexpLib}.

(** The pattern of a rule: a literal text or a compiled regexp. *)
Inductive Pattern :=
| Literal (text : list byte)
| Regex (r : RE).

(** One stage of the pipeline: a rule and its Pending Buffer. *)
Record Stage := mkStage {
  pattern : Pattern;
  template : list byte;
  pending : list byte
}.

(** Modelled from the spec: the literal-pattern stage of
    github.com/icholy/replace is not under src/.  The scan walks the window
    from the left: an occurrence of [old] is substituted by [new] (the
    [skip] counter steps over the rest of the occurrence); when what is left
    of the window could still be the beginning of an occurrence it is kept;
    any other byte is emitted.  Returns the bytes emitted and the bytes
    kept. *)
Fixpoint literal_scan (old new : list byte) (skip : nat) (window : list byte)
  : list byte * list byte :=
  match window with
  | [] => ([], [])
  | b :: rest =>
      match skip with
      | S k => literal_scan old new k rest
      | O =>
          if bool_decide (old `prefix_of` window) then
            let (out, keep) := literal_scan old new (length old - 1) rest in
            (new ++ out, keep)
          else if bool_decide (window `prefix_of` old) then ([], window)
          else
            let (out, keep) := literal_scan old new 0 rest in
            (b :: out, keep)
      end
  end.

(** A scan of the stage's window.  An empty literal finds no occurrence
    ([Provision] accepts no rule that would build one). *)
Definition stage_scan (st : Stage) (window : list byte) (atEOF : bool)
  : list byte * list byte :=
  match pattern st with
  | Literal [] => (window, [])
  | Literal old => literal_scan old (template st) 0 window
  | Regex r => RE_scan r (template st) window atEOF
  end.

(** Modelled from the spec: the stage objects of the engine are not under
    src/.  A pass scans the Pending Buffer followed by the new bytes; a
    streaming pass emits what is final and keeps the rest pending; the pass
    at end of input also flushes what was kept, unmodified, and leaves the
    Pending Buffer empty. *)
Definition stage_Transform (st : Stage) (src : list byte) (atEOF : bool)
  : Stage * list byte :=
  let (out, keep) := stage_scan st (pending st ++ src) atEOF in
  if atEOF then (mkStage (pattern st) (template st) [], out ++ keep)
  else (mkStage (pattern st) (template st) keep, out).

(** Modelled from the spec: [transform.Chain] of golang.org/x/text is not
    under src/.  The stages form a pipeline: what stage i emits in a pass is
    the source of stage i+1 in that pass. *)
Fixpoint chain_Transform (ch : list Stage) (src : list byte) (atEOF : bool)
  : list Stage * list byte :=
  match ch with
  | [] => ([], src)
  | st :: rest =>
      let (st', out) := stage_Transform st src atEOF in
      let (rest', out') := chain_Transform rest out atEOF in
      (st' :: rest', out')
  end.

Definition stage_Reset (st : Stage) : Stage :=
  mkStage (pattern st) (template st) [].

Definition chain_Reset (ch : list Stage) : list Stage := map stage_Reset ch.

(** The engine as an implementation of the packages the handler imports. *)
#[export] Instance SpecEngine : TransformLib := {|
  Regexp := RE;
  regexp_Compile := RE_Compile;
  Transformer := list Stage;
  replace_String old new :=
    [mkStage (Literal (list_byte_of_string old)) (list_byte_of_string new) []];
  replace_RegexpString r new :=
    [mkStage (Regex r) (list_byte_of_string new) []];
  transform_Chain := @concat Stage;
  Reset := chain_Reset;
  Transform t src atEOF :=
    let (t', out) := chain_Transform t src atEOF in (t', out, None)
|}.

(** What a pass hands on, given what its scan emitted and kept: at end of
    input the kept bytes are flushed behind the emitted ones. *)
Definition eof_flush (r : list byte * list byte) (atEOF : bool)
  : list byte * list byte :=
  if atEOF then (r.1 ++ r.2, []) else r.

(** The bytes a fresh stage emits for the input [x] in one pass at end of
    input. *)
Definition stage_total (st : Stage) (x : list byte) : list byte :=
  (stage_scan st x true).1 ++ (stage_scan st x true).2.



End Engine.

(** ** Regexp stages with a bounded lookahead *)

(** What a regexp can say about a match at the head of a window when more
    input may follow: a match of [len] bytes is confirmed, a match is ruled
    out, or neither yet. *)
Inductive Verdict :=
| Confirmed (len : nat)
| RuledOut
| Undecided.

(** Modelled from the spec: the regular-expression matcher under the regexp
    stage, which is not under src/.  [m_verdict] looks
    at the bytes seen so far from a position, [m_match_eof] at the bytes from
    a position to the end of the input (the length of the match at the head,
    if there is one); [m_expand] fills the template from the matched text;
    [m_lookahead] is the most the stage is willing to hold unresolved. *)
Class MatcherLib := {
  Matcher : Type;
  m_Compile : string -> error + Matcher;
  m_verdict : Matcher -> list byte -> Verdict;
  m_match_eof : Matcher -> list byte -> option nat;
  m_expand : Matcher -> list byte -> list byte -> list byte;
  m_lookahead : nat
}.

Section Bounded.
Context `{ML : MatcherLib}.

(** Modelled from the spec: the regexp stage of github.com/icholy/replace is
    not under src/.  The scan walks the window from the left.  A confirmed
    match is substituted by the expanded template ([skip] steps over the rest
    of the match); a byte where a match is ruled out is emitted.  Where the
    verdict is open the stage keeps what is left of the window, unless that
    already fills the lookahead: then it gives up, emits the buffered bytes
    unmodified and resumes fresh.  At end of input nothing is open: the
    match at the head, if any, is the one to the end of the input. *)
Fixpoint bounded_scan (m : Matcher) (tmpl : list byte) (skip : nat)
    (window : list byte) (atEOF : bool) : list byte * list byte :=
  match window with
  | [] => ([], [])
  | b :: rest =>
      match skip with
      | S k => bounded_scan m tmpl k rest atEOF
      | O =>
          let found :=
            if atEOF then
              match m_match_eof m window with
              | Some len => Confirmed len
              | None => RuledOut
              end
            else m_verdict m window in
          match found with
          | Confirmed (S n) =>
              let (out, keep) := bounded_scan m tmpl n rest atEOF in
              (m_expand m tmpl (take (S n) window) ++ out, keep)
          | Confirmed O | RuledOut =>
              let (out, keep) := bounded_scan m tmpl 0 rest atEOF in
              (b :: out, keep)
          | Undecided =>
              if Nat.leb m_lookahead (length window) then (window, [])
              else ([], window)
          end
      end
  end.

(** The regexp side of the engine, with the bounded-lookahead stage. *)
#[export] Instance BoundedRegexp : RegexpLib := {|
  RE := Matcher;
  RE_Compile := m_Compile;
  RE_scan m tmpl window atEOF := bounded_scan m tmpl 0 window atEOF
|}.

(** The positions of the input [x] at which the one-shot transform looks
    for a match, each given by what is left of the input there. *)
Fixpoint match_points (m : Matcher) (skip : nat) (x : list byte)
  : list (list byte) :=
  match x with
  | [] => []
  | b :: rest =>
      match skip with
      | S k => match_points m k rest
      | O =>
          x :: match m_match_eof m x with
               | Some (S n) => match_points m n rest
               | _ => match_points m 0 rest
               end
      end
  end.

(** The lookahead settles the position that [w] starts from: a match there
    is confirmed or ruled out by the next [m_lookahead] bytes, or fewer than
    that are left before the end of the input. *)
Definition settled (m : Matcher) (w : list byte) : bool :=
  Nat.ltb (length w) m_lookahead ||
  match m_verdict m (take m_lookahead w) with
  | Undecided => false
  | _ => true
  end.

(** The matches of the rule of [st] in the input [x] do not exceed the
    bounded lookahead (a literal rule has nothing to exceed). *)
Definition stage_within_lookahead (st : Stage) (x : list byte) : bool :=
  match pattern st with
  | Literal _ => true
  | Regex m => forallb (settled m) (match_points m 0 x)
  end.

(** The same for every rule of a chain, each on the input it receives: the
    complete output of the rule before it. *)
Fixpoint chain_within_lookahead (ch : list Stage) (x : list byte) : bool :=
  match ch with
  | [] => true
  | st :: rest =>
      stage_within_lookahead st x && chain_within_lookahead rest (stage_total st x)
  end.

(** What the verdicts mean: a confirmed match has between one byte and the
    bytes seen, a confirmed or ruled-out match stays so when more input
    follows, and it is then the answer at the end of the input too. *)
Definition lawful (m : Matcher) : Prop :=
  (forall w c len,
      m_verdict m w = Confirmed len ->
      (1 <= len <= length w)%nat /\
      m_verdict m (w ++ c) = Confirmed len /\
      m_match_eof m (w ++ c) = Some len) /\
  (forall w c,
      m_verdict m w = RuledOut ->
      m_verdict m (w ++ c) = RuledOut /\ m_match_eof m (w ++ c) = None).

Definition stage_lawful (st : Stage) : Prop :=
  match pattern st with
  | Literal _ => True
  | Regex m => lawful m
  end.

End Bounded.

(** ** Implementations for closed examples *)

(** A stand-in for the [regexp] package: [Compile] rejects a pattern with an
    unclosed parenthesis, as Go does, and the stage it builds finds no
    match. *)
Fixpoint unclosed_paren (s : string) (depth : nat) : bool :=
  match s with
  | EmptyString => negb (Nat.eqb depth 0)
  | String c rest =>
      if Ascii.eqb c "(" then unclosed_paren rest (S depth)
      else if Ascii.eqb c ")" then unclosed_paren rest (Nat.pred depth)
      else unclosed_paren rest depth
  end.

Definition stub_Compile (s : string) : error + string :=
  if unclosed_paren s 0
  then inl ("error parsing regexp: missing closing ): `" +:+ s +:+ "`")
  else inr s.

Definition StubRegexp : RegexpLib := {|
  RE := string;
  RE_Compile := stub_Compile;
  RE_scan _ _ window _ := (window, [])
|}.

(** The closed examples run the engine with the stand-in regexp package. *)
Definition ExampleLib : TransformLib := @SpecEngine StubRegexp.

(** A small regexp package for closed examples: the patterns [c+] (one or
    more of the byte [c], as long a run as there is), with a lookahead of
    four bytes.  A run is confirmed once the byte that ends it is seen. *)
Fixpoint run_length (c : byte) (w : list byte) : nat :=
  match w with
  | [] => O
  | b :: rest => if Byte.eqb b c then S (run_length c rest) else O
  end.

Definition run_verdict (c : byte) (w : list byte) : Verdict :=
  match w with
  | [] => Undecided
  | b :: _ =>
      if Byte.eqb b c then
        if Nat.ltb (run_length c w) (length w) then Confirmed (run_length c w)
        else Undecided
      else RuledOut
  end.

Definition run_match_eof (c : byte) (w : list byte) : option nat :=
  match w with
  | [] => None
  | b :: _ => if Byte.eqb b c then Some (run_length c w) else None
  end.

Definition run_Compile (s : string) : error + byte :=
  match s with
  | String c (String "+" EmptyString) => inr (byte_of_ascii c)
  | _ => inl "error parsing regexp: unsupported pattern"
  end.

Definition RunMatcher : MatcherLib := {|
  Matcher := byte;
  m_Compile := run_Compile;
  m_verdict := run_verdict;
  m_match_eof := run_match_eof;
  m_expand _ tmpl _ := tmpl;
  m_lookahead := 4
|}.

Definition RunLib : TransformLib := @SpecEngine (@BoundedRegexp RunMatcher).

(** A transformer whose conversion fails on the byte 0xff and is the
    identity otherwise. *)
Definition strict_Transform (src : list byte)
  : unit * list byte * option error :=
  if existsb (Byte.eqb xff) src
  then (tt, [], Some "encoding: invalid UTF-8")
  else (tt, src, None).

Definition StrictLib : TransformLib := {|
  Regexp := string;
  regexp_Compile := stub_Compile;
  Transformer := unit;
  replace_String _ _ := tt;
  replace_RegexpString _ _ := tt;
  transform_Chain _ := tt;
  Reset _ := tt;
  Transform _ src _ := strict_Transform src
|}.

(** A response recorder after caddyhttp's: the first [WriteHeader] records
    the status and asks [shouldBuffer] whether to buffer; a recorder that
    does not buffer passes the calls on to the underlying writer. *)
Record recorder := mkRecorder {
  rr_statusCode : Z;
  rr_buf : list byte;
  rr_wroteHeader : bool;
  rr_stream : bool
}.

Definition rr_WriteHeader (shouldBuffer : Z -> Header -> bool)
    (rr : recorder) (status : Z) : M recorder :=
  if rr_wroteHeader rr then ret rr
  else
    fun s =>
      let stream := negb (shouldBuffer status (header s)) in
      let rr' := mkRecorder status (rr_buf rr) true stream in
      if stream then (_ <- w_WriteHeader status ;; ret rr') s
      else ret rr' s.

Definition rr_Write (shouldBuffer : Z -> Header -> bool)
    (rr : recorder) (d : list byte) : M recorder :=
  rr1 <- rr_WriteHeader shouldBuffer rr 200 ;;
  if rr_stream rr1 then _ <- w_Write d ;; ret rr1
  else
    ret (mkRecorder (rr_statusCode rr1) (rr_buf rr1 ++ d)
           (rr_wroteHeader rr1) (rr_stream rr1)).

Definition CaddyRecorder (shouldBuffer : Z -> Header -> bool) : RecorderLib := {|
  ResponseRecorder := recorder;
  NewResponseRecorder := mkRecorder 0 [] false false;
  rec_writer :=
    {| rw_WriteHeader := rr_WriteHeader shouldBuffer;
       rw_Write := rr_Write shouldBuffer |};
  Buffered rr := negb (rr_stream rr);
  Status := rr_statusCode;
  Buffer_Bytes := rr_buf
|}.

(** The recorder [ServeHTTP] builds, whose [shouldBuf] always accepts, and a
    recorder that declines to buffer. *)
Definition BufferingRecorder : RecorderLib := CaddyRecorder (fun _ _ => true).
Definition DecliningRecorder : RecorderLib := CaddyRecorder (fun _ _ => false).

(** A dispenser for closed examples, after caddyfile's: the tokens with
    their line numbers, the number of tokens the cursor has passed
    ([cursor + 1]) and the nesting level. *)
Record tokens := mkTokens {
  toks : list (string * nat);
  pos : nat;
  nest : Z
}.

Definition tok_at (d : tokens) (p : nat) : option (string * nat) :=
  match p with
  | O => None
  | S c => toks d !! c
  end.

Definition tok_Val (d : tokens) : string :=
  match tok_at d (pos d) with
  | Some (t, _) => t
  | None => ""
  end.

Definition tok_move (d : tokens) (p : nat) : tokens := mkTokens (toks d) p (nest d).

Definition tok_Next (d : tokens) : bool * tokens :=
  if Nat.ltb (pos d) (length (toks d)) then (true, tok_move d (S (pos d)))
  else (false, d).

Definition tok_nextOnSameLine (d : tokens) : bool * tokens :=
  match pos d with
  | O => (true, tok_move d 1)
  | S _ =>
      match tok_at d (pos d), tok_at d (S (pos d)) with
      | Some (_, l1), Some (_, l2) =>
          if Nat.eqb l1 l2 then (true, tok_move d (S (pos d))) else (false, d)
      | _, _ => (false, d)
      end
  end.

Definition tok_NextArg (d : tokens) : bool * tokens :=
  let (ok, d1) := tok_nextOnSameLine d in
  if negb ok then (false, d1)
  else if String.eqb (tok_Val d1) "{" then (false, tok_move d1 (Nat.pred (pos d1)))
  else (true, d1).

Definition tok_AllArgs2 (d : tokens) (a b : string)
  : bool * string * string * tokens :=
  let (ok1, d1) := tok_NextArg d in
  if negb ok1 then (false, a, b, d1)
  else
    let (ok2, d2) := tok_NextArg d1 in
    if negb ok2 then (false, tok_Val d1, b, d2)
    else
      let (more, d3) := tok_NextArg d2 in
      if more then (false, tok_Val d1, tok_Val d2, tok_move d3 (Nat.pred (pos d3)))
      else (true, tok_Val d1, tok_Val d2, d3).

Definition tok_NextBlock (d : tokens) (initial : Z) : bool * tokens :=
  if initial <? nest d then
    let (ok, d1) := tok_Next d in
    if negb ok then (false, d1)
    else
      let (closed, d2) :=
        if String.eqb (tok_Val d1) "}" then
          let (same, d2) := tok_nextOnSameLine d1 in (negb same, d2)
        else (false, d1) in
      if closed then (initial <? nest d - 1, mkTokens (toks d2) (pos d2) (nest d - 1))
      else
        let (opened, d3) :=
          if String.eqb (tok_Val d2) "{" then
            let (same, d3) := tok_nextOnSameLine d2 in (negb same, d3)
          else (false, d2) in
        let n := if opened then nest d + 1 else nest d in
        (initial <? n, mkTokens (toks d3) (pos d3) n)
  else
    let (ok, d1) := tok_nextOnSameLine d in
    if negb ok then (false, d1)
    else if negb (String.eqb (tok_Val d1) "{") then
      (false, tok_move d1 (Nat.pred (pos d1)))
    else
      let d2 := (tok_Next d1).2 in
      if String.eqb (tok_Val d2) "}" then (false, d2)
      else (true, mkTokens (toks d2) (pos d2) (nest d2 + 1)).

Definition TokenDispenser : DispenserLib := {|
  Dispenser := tokens;
  d_Next := tok_Next;
  d_NextArg := tok_NextArg;
  d_Val := tok_Val;
  d_AllArgs2 := tok_AllArgs2;
  d_Nesting := nest;
  d_NextBlock := tok_NextBlock;
  d_Err _ msg := msg;
  d_ArgErr _ := "wrong argument count or unexpected line ending"
|}.

(** The tokens of a directive, before the first [Next]. *)
Definition dispenser_of (ts : list (string * nat)) : tokens := mkTokens ts 0 0.

(** Handlers used in the closed examples. *)
Definition literal_rule `{TransformLib} (search replace : string) : Replacement :=
  mkReplacement search "" replace None.
Definition regexp_rule `{TransformLib} (search_regexp replace : string) : Replacement :=
  mkReplacement "" search_regexp replace None.
Definition config `{TransformLib} (rules : list Replacement) (stream : bool) : Handler :=
  mkHandler rules stream None.

Definition empty_world : World := mkWorld ∅ [].

(** ** Vocabulary of the statements *)

(** The first call on the underlying writer is a [WriteHeader] whose header
    snapshot has no Content-Length. *)
Fixpoint finalized_without_length (cs : list Call) : bool :=
  match cs with
  | [] => false
  | WriteHeaderCall _ hdr :: _ => bool_decide (hdr !! "Content-Length" = None)
  | WriteCall _ _ :: _ => false
  | _ :: rest => finalized_without_length rest
  end.

(** No call has been made on the underlying writer. *)
Definition untouched (cs : list Call) : bool :=
  forallb (fun c => negb (is_writer_call c)) cs.

Section Vocabulary.
Context `{TL : TransformLib}.

(** Exactly one of [search] and [search_regexp] is set. *)
Definition well_formed (repl : Replacement) : bool :=
  xorb (negb (String.eqb (Search repl) ""))
       (negb (String.eqb (SearchRegexp repl) "")).

(** The regexp of the rule compiles. *)
Definition compiles (repl : Replacement) : bool :=
  match regexp_Compile (SearchRegexp repl) with
  | inr _ => true
  | inl _ => false
  end.

(** A rule [Provision] has nothing to say against. *)
Definition rule_ok (repl : Replacement) : bool :=
  well_formed repl && (String.eqb (SearchRegexp repl) "" || compiles repl).

(** The error message names rule [i]. *)
Definition names_rule (e : error) (i : nat) : bool :=
  String.prefix ("replacement " +:+ itoa i +:+ ": ") e.

(** The message [e] includes the text [sub]. *)
Fixpoint includes (sub e : string) : bool :=
  String.prefix sub e ||
  match e with
  | EmptyString => false
  | String _ rest => includes sub rest
  end.

(** The status the first [WriteHeader] or [Write] of the upstream sends. *)
Fixpoint first_status (acts : list Action) : list Z :=
  match acts with
  | [] => []
  | DoWriteHeader st :: _ => [st]
  | DoWrite _ :: _ => [200]
  | _ :: rest => first_status rest
  end.

(** The chunks the upstream writes, in order. *)
Fixpoint writes_of (acts : list Action) : list (list byte) :=
  match acts with
  | [] => []
  | DoWrite d :: rest => d :: writes_of rest
  | _ :: rest => writes_of rest
  end.

(** The bytes a transformer emits over streaming passes on the chunks and
    the closing pass at end of input. *)
Fixpoint stream_output (t : Transformer) (chunks : list (list byte)) : list byte :=
  match chunks with
  | [] => (Transform t [] true).1.2
  | c :: rest =>
      (Transform t c false).1.2 ++ stream_output (Transform t c false).1.1 rest
  end.

(** The bytes [transform.Bytes] returns for the buffer [b]. *)
Definition buffered_output (t : Transformer) (b : list byte) : list byte :=
  (transform_Bytes t b (mkWorld ∅ [])).1.1.2.

(** The transformer [ServeHTTP] works with: drawn from the pool, then
    reset. *)
Definition acquired (h : Handler) (pool : list Transformer) : Transformer :=
  Reset (pool_Get h pool).1.

(** The idle transformers of the pool are instances of the handler's chain:
    resetting one gives what [New] builds. *)
Definition pool_of (h : Handler) (pool : list Transformer) : Prop :=
  Forall (fun t => Reset t = pool_New h) pool.

(** The effect of one upstream action on the [replaceWriter] and the world. *)
Definition stream_step (a : Action) (fw : replaceWriter) (s : World)
  : replaceWriter * World :=
  match a with
  | DoHeaderSet k v => (fw, mkWorld (Header_Set (header s) k v) (calls s))
  | DoHeaderDel k => (fw, mkWorld (Header_Del (header s) k) (calls s))
  | DoWriteHeader st => fw_WriteHeader fw st s
  | DoWrite d => fw_Write fw d s
  end.

(** The state of the header protocol: before the first [WriteHeader] or
    [Write] of the upstream nothing has reached the underlying writer;
    afterwards its first call is a [WriteHeader] without Content-Length. *)
Definition header_protocol (fw : replaceWriter) (s : World) : bool :=
  if wroteHeader fw then finalized_without_length (calls s)
  else untouched (calls s).

(** The recorder and the world once [next.ServeHTTP(rec, r)] has returned,
    in the buffered branch of [ServeHTTP]. *)
Definition upstream_recorded `{RL : RecorderLib} (next : Next) (s : World)
  : ResponseRecorder * World :=
  next_ServeHTTP (next_actions next) NewResponseRecorder (log ResetCall s).2.

End Vocabulary.


(** ** Further vocabulary *)

(** The characters of [s] are decimal digits. *)
Fixpoint all_digits (s : string) : bool :=
  match s with
  | EmptyString => true
  | String c rest =>
      existsb (Ascii.eqb c)
        ["0"; "1"; "2"; "3"; "4"; "5"; "6"; "7"; "8"; "9"]%char
      && all_digits rest
  end.

(** The header edits of the upstream, applied in order. *)
Fixpoint apply_header_edits (acts : list Action) (hdr : Header) : Header :=
  match acts with
  | [] => hdr
  | DoHeaderSet k v :: rest => apply_header_edits rest (Header_Set hdr k v)
  | DoHeaderDel k :: rest => apply_header_edits rest (Header_Del hdr k)
  | _ :: rest => apply_header_edits rest hdr
  end.

(** The actions before the first [WriteHeader] or [Write] of the upstream,
    and the actions after it (if there is one). *)
Fixpoint until_first_write (acts : list Action) : list Action :=
  match acts with
  | [] => []
  | a :: rest => if is_write_action a then [] else a :: until_first_write rest
  end.

Fixpoint after_first_write (acts : list Action) : option (list Action) :=
  match acts with
  | [] => None
  | a :: rest => if is_write_action a then Some rest else after_first_write rest
  end.

Section ExtraVocabulary.
Context `{TL : TransformLib}.

(** A rule as [UnmarshalCaddyfile] builds it: at most one of the two
    patterns is set and the regexp is not compiled yet. *)
Definition single_pattern (repl : Replacement) : Prop :=
  (Search repl = "" \/ SearchRegexp repl = "") /\ re repl = None.

(** What [Provision] may do to a rule: nothing, or set the compiled form of
    its regexp. *)
Definition provisioned (r r' : Replacement) : Prop :=
  Search r' = Search r /\ SearchRegexp r' = SearchRegexp r /\
  Replace r' = Replace r /\
  (re r' = re r \/
   (SearchRegexp r <> "" /\
    exists c, regexp_Compile (SearchRegexp r) = inr c /\ re r' = Some c)).

(** The regexp of a regexp rule is compiled. *)
Definition compiled (r : Replacement) : Prop :=
  SearchRegexp r <> "" ->
  exists c, regexp_Compile (SearchRegexp r) = inr c /\ re r = Some c.

(** The transformer of the kind of the rule: a regexp transformer over the
    compiled [search_regexp] when one is set, a literal one otherwise. *)
Definition transformer_of (r : Replacement) : Transformer :=
  if String.eqb (SearchRegexp r) "" then replace_String (Search r) (Replace r)
  else
    match regexp_Compile (SearchRegexp r) with
    | inr c => replace_RegexpString c (Replace r)
    | inl _ => replace_String (Search r) (Replace r)
    end.

(** [h'] is [h] with rules appended, each with a single pattern, and
    possibly with streaming switched on. *)
Definition extends (h h' : Handler) : Prop :=
  transformerPool h' = transformerPool h /\
  (Stream h = true -> Stream h' = true) /\
  exists added,
    Replacements h' = Replacements h ++ added /\ Forall single_pattern added.

(** What [sync.Pool] promises of [Get]: it hands out any of the idle items
    and takes it from the pool, or it ignores them and calls [New]. *)
Inductive pool_Get_any (h : Handler) (pool : list Transformer)
  : Transformer -> list Transformer -> Prop :=
| Get_idle (t : Transformer) (idle : list Transformer) :
    pool ≡ₚ t :: idle -> pool_Get_any h pool t idle
| Get_New : pool_Get_any h pool (pool_New h) pool.

(** Requests served one after the other by the same handler, over every
    behaviour [sync.Pool] allows: idle items may have been dropped before a
    request ([kept]), [Get] picks as [pool_Get_any] lets it, and of what the
    deferred [Put] leaves any part may be dropped again ([pool']).
    [ServeHTTP_pool h (tr :: idle)] is the body of [ServeHTTP] with [tr] the
    result of [Get] and [idle] what stays in the pool.  A handler without a
    pool serves nothing: that is the nil-pointer panic.  The run collects
    the error of every request. *)
Inductive serves `{RL : RecorderLib}
  : Handler -> list Next -> World -> Handler -> list (option error) -> World -> Prop :=
| serves_nil (h : Handler) (s : World) : serves h [] s h [] s
| serves_cons (h : Handler) (pool kept idle pool' : list Transformer)
    (tr : Transformer) (next : Next) (rest : list Next) (s : World)
    (h' : Handler) (errs : list (option error)) (s' : World) :
    transformerPool h = Some pool ->
    kept ⊆+ pool ->
    pool_Get_any h kept tr idle ->
    pool' ⊆+ (ServeHTTP_pool h (tr :: idle) next s).1.1 ->
    serves (mkHandler (Replacements h) (Stream h) (Some pool')) rest
           (ServeHTTP_pool h (tr :: idle) next s).2 h' errs s' ->
    serves h (next :: rest) s h'
           ((ServeHTTP_pool h (tr :: idle) next s).1.2 :: errs) s'.

(** The same requests, each served with a transformer fresh from [New]. *)
Fixpoint serve_fresh `{RL : RecorderLib} (h : Handler) (nexts : list Next)
    (s : World) : list (option error) * World :=
  match nexts with
  | [] => ([], s)
  | next :: rest =>
      let r := ServeHTTP_pool h [] next s in
      let (errs, s') := serve_fresh h rest r.2 in
      (r.1.2 :: errs, s')
  end.

(** The cursor of the dispenser only moves forward: no method lets the
    number [m] of tokens left grow, and a [Next] or [NextBlock] that returns
    true consumes at least one. *)
Definition forward_only `{DL : DispenserLib} (m : Dispenser -> nat) : Prop :=
  (forall d, (m (d_Next d).2 <= m d)%nat /\
             ((d_Next d).1 = true -> (m (d_Next d).2 < m d)%nat)) /\
  (forall d, (m (d_NextArg d).2 <= m d)%nat) /\
  (forall d a b, (m (d_AllArgs2 d a b).2 <= m d)%nat) /\
  (forall d n, (m (d_NextBlock d n).2 <= m d)%nat /\
               ((d_NextBlock d n).1 = true -> (m (d_NextBlock d n).2 < m d)%nat)).

End ExtraVocabulary.

(** The tokens the example dispenser has left. *)
Definition tokens_left (d : tokens) : nat := length (toks d) - pos d.

(** The header map [serve_buffered] leaves, given the map before it and the
    transformed body. *)
Definition corrected_header (hdr : Header) (result : list byte) : Header :=
  if negb (String.eqb (Header_Get hdr "Content-Length") "")
  then Header_Set hdr "Content-Length" (itoa (length result))
  else hdr.

(** Unfold the state-passing steps of the handler and of the packages. *)
Ltac run_world :=
  cbv beta iota delta
    [bind ret log t_Reset t_Transform transform_Bytes transform_NewWriter
     Writer_Write Writer_Close w_Header_Get w_Header_Set w_Header_Del
     w_WriteHeader w_Write];
  cbn [fst snd header calls].

(** * Properties *)

(** ** Printing lengths and indices *)

Lemma atoi_itoa (n : nat) : atoi (itoa n) = Some n.
Proof.
  unfold atoi, itoa.
  rewrite NilZero.usu.
  - now rewrite DecimalNat.Unsigned.of_to.
  - intros E. pose proof (f_equal Nat.of_uint E) as E0.
    rewrite DecimalNat.Unsigned.of_to in E0. simpl in E0. subst n.
    discriminate E.
Qed.

Lemma itoa_inj (n m : nat) : itoa n = itoa m -> n = m.
Proof.
  intros E. apply (f_equal atoi) in E. rewrite !atoi_itoa in E. congruence.
Qed.

Lemma prefix_append (s t : string) : String.prefix s (s +:+ t) = true.
Proof.
  induction s as [|c s IH].
  - now destruct t.
  - change (String.prefix (String c s) (String c (s +:+ t)) = true).
    simpl. rewrite IH. now destruct (ascii_dec c c).
Qed.

Lemma append_assoc (s t u : string) : (s +:+ t) +:+ u = s +:+ (t +:+ u).
Proof.
  induction s as [|c s IH]; [reflexivity|].
  change (String c ((s +:+ t) +:+ u) = String c (s +:+ (t +:+ u))).
  now f_equal.
Qed.

(** ** [Provision] *)

Section ProvisionFacts.
Context `{TL : TransformLib}.

Lemma names_rule_prefix (i : nat) (t : string) :
  names_rule ("replacement " +:+ itoa i +:+ ": " +:+ t) i = true.
Proof.
  unfold names_rule.
  rewrite <- (append_assoc (itoa i) ": " t).
  rewrite <- (append_assoc "replacement " (itoa i +:+ ": ") t).
  apply prefix_append.
Qed.

Lemma names_rule_no_search (i : nat) : names_rule (err_no_search i) i = true.
Proof. exact (names_rule_prefix i "no search or search_regexp configured"). Qed.

Lemma names_rule_both (i : nat) : names_rule (err_both i) i = true.
Proof.
  exact (names_rule_prefix i
           "cannot specify both search and search_regexp in same replacement").
Qed.

Lemma names_rule_regexp (i : nat) (err : error) :
  names_rule (err_regexp i err) i = true.
Proof. exact (names_rule_prefix i err). Qed.

(** What the loop does with one rule, by cases on the rule. *)
Lemma prepare_no_pattern i repl rest :
  Search repl = "" -> SearchRegexp repl = "" ->
  (prepare i (repl :: rest)).2 = Some (err_no_search i).
Proof. intros E1 E2. simpl. now rewrite E1, E2. Qed.

Lemma prepare_both i repl rest :
  Search repl <> "" -> SearchRegexp repl <> "" ->
  (prepare i (repl :: rest)).2 = Some (err_both i).
Proof.
  intros E1 E2. simpl.
  apply String.eqb_neq in E1, E2. now rewrite E1, E2.
Qed.

Lemma prepare_bad_regexp i repl rest err :
  Search repl = "" -> SearchRegexp repl <> "" ->
  regexp_Compile (SearchRegexp repl) = inl err ->
  (prepare i (repl :: rest)).2 = Some (err_regexp i err).
Proof.
  intros E1 E2 E3. simpl.
  apply String.eqb_neq in E2. now rewrite E1, E2, E3.
Qed.

Lemma prepare_rule_ok i repl rest :
  rule_ok repl = true ->
  (prepare i (repl :: rest)).2 = (prepare (S i) rest).2.
Proof.
  unfold rule_ok, well_formed, compiles. intros Hok. simpl.
  destruct (String.eqb (Search repl) ""), (String.eqb (SearchRegexp repl) "");
    simpl in *; try discriminate.
  - destruct (regexp_Compile (SearchRegexp repl)); [discriminate|].
    now destruct (prepare (S i) rest).
  - now destruct (prepare (S i) rest).
Qed.

Lemma prepare_rule_bad i repl rest :
  rule_ok repl = false -> exists e, (prepare i (repl :: rest)).2 = Some e.
Proof.
  unfold rule_ok, well_formed, compiles. intros Hbad. simpl.
  destruct (String.eqb (Search repl) ""), (String.eqb (SearchRegexp repl) "");
    simpl in *; try discriminate; eauto.
  destruct (regexp_Compile (SearchRegexp repl)); [eauto | discriminate].
Qed.

(** The loop passes over a prefix of accepted rules. *)
Lemma prepare_skip_ok pre : forall i rest,
  forallb rule_ok pre = true ->
  (prepare i (pre ++ rest)).2 = (prepare (length pre + i) rest).2.
Proof.
  induction pre as [|repl pre IH]; intros i rest Hok; [reflexivity|].
  simpl in Hok. apply andb_true_iff in Hok as [Hr Hpre].
  change ((repl :: pre) ++ rest) with (repl :: (pre ++ rest)).
  rewrite prepare_rule_ok by assumption.
  rewrite IH by assumption. simpl. f_equal. f_equal. lia.
Qed.

Lemma prepare_None_iff repls : forall i,
  (prepare i repls).2 = None <-> forallb rule_ok repls = true.
Proof.
  induction repls as [|repl rest IH]; intros i; [simpl; tauto|].
  destruct (rule_ok repl) eqn:Hr.
  - rewrite prepare_rule_ok by assumption. simpl. rewrite Hr. simpl. apply IH.
  - destruct (prepare_rule_bad i repl rest Hr) as [e He]. rewrite He.
    simpl. rewrite Hr. simpl. split; discriminate.
Qed.

(** The error of the loop is never the message of the empty list. *)
Lemma prepare_error_names_a_rule repls : forall i e,
  (prepare i repls).2 = Some e -> exists j, names_rule e j = true.
Proof.
  induction repls as [|repl rest IH]; intros i e; [discriminate|].
  simpl.
  destruct (String.eqb (Search repl) ""), (String.eqb (SearchRegexp repl) "");
    simpl.
  - intros [= <-]. eexists. apply names_rule_no_search.
  - destruct (regexp_Compile (SearchRegexp repl)) as [err|r].
    + intros [= <-]. eexists. apply names_rule_regexp.
    + destruct (prepare (S i) rest) as [rest' e'] eqn:E. simpl.
      intros ->. apply (IH (S i)). now rewrite E.
  - destruct (prepare (S i) rest) as [rest' e'] eqn:E. simpl.
    intros ->. apply (IH (S i)). now rewrite E.
  - intros [= <-]. eexists. apply names_rule_both.
Qed.

Lemma Provision_error (h : Handler) :
  (Provision h).2 =
  if Nat.eqb (length (Replacements h)) 0 then Some "no replacements configured"
  else (prepare 0 (Replacements h)).2.
Proof.
  unfold Provision. destruct (Nat.eqb (length (Replacements h)) 0); [reflexivity|].
  destruct (prepare 0 (Replacements h)) as [repls [e|]]; reflexivity.
Qed.

Lemma Provision_pool_on_error (h : Handler) (e : error) :
  (Provision h).2 = Some e ->
  transformerPool (Provision h).1 = transformerPool h.
Proof.
  unfold Provision. destruct (Nat.eqb (length (Replacements h)) 0); [reflexivity|].
  destruct (prepare 0 (Replacements h)) as [repls [e'|]]; [reflexivity|discriminate].
Qed.

(** The error of the first offending rule, at its index. *)
Lemma Provision_at_first_offender (h : Handler) (i : nat) (repl : Replacement) :
  Replacements h !! i = Some repl ->
  forallb rule_ok (take i (Replacements h)) = true ->
  (Provision h).2 = (prepare i (repl :: drop (S i) (Replacements h))).2.
Proof.
  intros Hi Hpre. rewrite Provision_error.
  destruct (Replacements h) as [|r0 l0] eqn:El; [discriminate Hi|].
  rewrite <- El in *. replace (Nat.eqb (length (Replacements h)) 0) with false
    by (rewrite El; reflexivity).
  rewrite <- (take_drop_middle _ _ _ Hi) at 1.
  rewrite prepare_skip_ok by assumption.
  apply lookup_lt_Some in Hi.
  now rewrite length_take, Nat.add_0_r, Nat.min_l by lia.
Qed.

End ProvisionFacts.

Section ProvisionClaims.
Context `{TL : TransformLib}.

Lemma prefix_refl (s : string) : String.prefix s s = true.
Proof.
  induction s as [|c s IH]; [reflexivity|].
  simpl. rewrite IH. now destruct (ascii_dec c c).
Qed.

Lemma includes_append (pre sub : string) : includes sub (pre +:+ sub) = true.
Proof.
  induction pre as [|c pre IH].
  - change ("" +:+ sub) with sub.
    destruct sub as [|c sub]; [reflexivity|].
    cbn [includes]. now rewrite prefix_refl.
  - change (String c pre +:+ sub) with (String c (pre +:+ sub)).
    cbn [includes]. rewrite IH. apply orb_true_r.
Qed.

Lemma includes_err_regexp (i : nat) (err : error) :
  includes err (err_regexp i err) = true.
Proof.
  unfold err_regexp.
  rewrite <- (append_assoc (itoa i) ": " err).
  rewrite <- (append_assoc "replacement " (itoa i +:+ ": ") err).
  apply includes_append.
Qed.

Lemma empty_list_message_names_no_rule (j : nat) :
  names_rule "no replacements configured" j = false.
Proof. reflexivity. Qed.

Lemma rule_ok_at (h : Handler) (i : nat) (repl : Replacement) :
  forallb rule_ok (Replacements h) = true ->
  Replacements h !! i = Some repl -> rule_ok repl = true.
Proof.
  intros Hall Hi. rewrite forallb_forall in Hall. apply Hall.
  apply list_elem_of_In, list_elem_of_lookup. eauto.
Qed.

(** C4 (as amended).  [Provision] returns "no replacements configured"
    exactly when the rule list is empty; for a rule with neither pattern
    set, and for a rule with both set, that no offending rule precedes, it
    returns the error of that rule, which names the rule's index; and it
    returns no error exactly when the list is not empty and every rule is
    well-formed and has a regexp that compiles. *)
Theorem Provision_validation (h : Handler) :
  ((Provision h).2 = Some "no replacements configured" <-> Replacements h = []) /\
  (forall i repl,
      Replacements h !! i = Some repl ->
      forallb rule_ok (take i (Replacements h)) = true ->
      Search repl = "" -> SearchRegexp repl = "" ->
      (Provision h).2 = Some (err_no_search i) /\
      names_rule (err_no_search i) i = true) /\
  (forall i repl,
      Replacements h !! i = Some repl ->
      forallb rule_ok (take i (Replacements h)) = true ->
      Search repl <> "" -> SearchRegexp repl <> "" ->
      (Provision h).2 = Some (err_both i) /\
      names_rule (err_both i) i = true) /\
  ((Provision h).2 = None <->
   Replacements h <> [] /\ forallb rule_ok (Replacements h) = true).
Proof.
  repeat split.
  - rewrite Provision_error.
    destruct (Replacements h) as [|r0 l0]; [reflexivity|].
    cbn [length Nat.eqb]. intros He.
    destruct (prepare_error_names_a_rule _ _ _ He) as [j Hj].
    now rewrite empty_list_message_names_no_rule in Hj.
  - intros E. rewrite Provision_error, E. reflexivity.
  - rewrite (Provision_at_first_offender h i repl) by assumption.
    now apply prepare_no_pattern.
  - apply names_rule_no_search.
  - rewrite (Provision_at_first_offender h i repl) by assumption.
    now apply prepare_both.
  - apply names_rule_both.
  - rewrite Provision_error in H.
    destruct (Replacements h); [discriminate H | discriminate].
  - rewrite Provision_error in H.
    destruct (Nat.eqb (length (Replacements h)) 0); [discriminate H|].
    now apply prepare_None_iff in H.
  - intros [Hne Hall]. rewrite Provision_error.
    destruct (Replacements h) as [|r0 l0] eqn:El; [congruence|].
    cbn [length Nat.eqb]. now apply prepare_None_iff.
Qed.

(** C5 (as amended).  When the regexp of a rule does not compile,
    [Provision] fails and leaves the transformer pool unbuilt; when that
    rule sets no literal search and no offending rule precedes it, the error
    names the rule's index and includes the syntax error of the regexp. *)
Theorem Provision_regexp_error (h : Handler) (i : nat) (repl : Replacement)
    (err : error) :
  Replacements h !! i = Some repl ->
  SearchRegexp repl <> "" ->
  regexp_Compile (SearchRegexp repl) = inl err ->
  (exists e, (Provision h).2 = Some e) /\
  transformerPool (Provision h).1 = transformerPool h /\
  (Search repl = "" ->
   forallb rule_ok (take i (Replacements h)) = true ->
   (Provision h).2 = Some (err_regexp i err) /\
   names_rule (err_regexp i err) i = true /\
   includes err (err_regexp i err) = true).
Proof.
  intros Hi Hre Hc.
  assert (Hfail : exists e, (Provision h).2 = Some e).
  { destruct (Provision h).2 as [e|] eqn:E; [eauto|].
    assert (Hok : rule_ok repl = true).
    { eapply rule_ok_at; [|exact Hi].
      rewrite Provision_error in E.
      destruct (Nat.eqb (length (Replacements h)) 0); [discriminate E|].
      now apply prepare_None_iff in E. }
    unfold rule_ok, compiles in Hok. rewrite Hc in Hok.
    apply String.eqb_neq in Hre. rewrite Hre in Hok.
    rewrite andb_false_r in Hok. discriminate Hok. }
  split; [exact Hfail|]. split.
  - destruct Hfail as [e He]. eapply Provision_pool_on_error, He.
  - intros Hs Hpre. repeat split.
    + rewrite (Provision_at_first_offender h i repl) by assumption.
      now apply prepare_bad_regexp.
    + apply names_rule_regexp.
    + apply includes_err_regexp.
Qed.

End ProvisionClaims.

Section ProvisionExamples.
#[local] Existing Instance ExampleLib.

(** C4, on the configuration [Foo -> Bar; (nothing) -> x]: the first case
    of the theorem applies to rule 1. *)
Lemma Provision_validation_witness :
  (@Provision ExampleLib
     (config [literal_rule "Foo" "Bar"; literal_rule "" "x"] false)).2
  = Some (@err_no_search 1).
Proof.
  refine (proj1 (proj1 (proj2 (@Provision_validation ExampleLib
            (config [literal_rule "Foo" "Bar"; literal_rule "" "x"] false)))
          1%nat (literal_rule "" "x") _ _ _ _)); reflexivity.
Defined.

(** C4 as stated fails: with rule 0 setting both patterns and rule 1
    setting neither, the one error [Provision] returns names rule 0 and does
    not name rule 1. *)
Lemma Provision_reports_first_offender_only :
  let h := @config ExampleLib
             [mkReplacement "a" "b" "c" None; literal_rule "" "x"] false in
  Replacements h !! 1%nat = Some (literal_rule "" "x") /\
  Search (literal_rule "" "x") = "" /\
  SearchRegexp (literal_rule "" "x") = "" /\
  (Provision h).2 = Some (err_both 0) /\
  names_rule (err_both 0) 1 = false.
Proof. repeat split. Qed.

(** C5, on the configuration with the single rule [re "(" -> b]. *)
Lemma Provision_regexp_error_witness :
  (@Provision ExampleLib (config [regexp_rule "(" "b"] false)).2
  = Some "replacement 0: error parsing regexp: missing closing ): `(`".
Proof.
  refine (proj1 (proj2 (proj2 (@Provision_regexp_error ExampleLib
            (config [regexp_rule "(" "b"] false) 0%nat (regexp_rule "(" "b")
            "error parsing regexp: missing closing ): `(`" _ _ _)) _ _));
    try reflexivity.
  discriminate.
Defined.

(** C5 as stated fails: the rule sets a literal search next to a regexp
    that does not compile; [Provision] rejects it for setting both, before
    compiling, and the error carries no syntax error. *)
Lemma Provision_both_hides_syntax_error :
  let repl := @mkReplacement ExampleLib "a" "(" "b" None in
  let h := config [repl] false in
  Replacements h !! 0%nat = Some repl /\
  regexp_Compile (SearchRegexp repl)
    = inl "error parsing regexp: missing closing ): `(`" /\
  (Provision h).2 = Some (err_both 0) /\
  includes "error parsing regexp: missing closing ): `(`" (err_both 0) = false.
Proof. repeat split. Qed.

End ProvisionExamples.

(** ** The buffered branch of [ServeHTTP] *)

Section BufferedFacts.
Context `{TL : TransformLib} `{RL : RecorderLib}.

(** [transform.Bytes] touches the world only through its two log entries. *)
Lemma transform_Bytes_run (t : Transformer) (b : list byte) (s : World) :
  transform_Bytes t b s =
  (Transform (Reset t) b true,
   mkWorld (header s) ((calls s ++ [ResetCall]) ++ [TransformCall b true])).
Proof. reflexivity. Qed.

(** The buffered branch, step by step: the upstream runs against the
    recorder, then [serve_buffered] finishes, then the transformer goes back
    to the pool. *)
Lemma ServeHTTP_pool_buffered (h : Handler) (pool : list Transformer)
    (next : Next) (s : World) :
  Stream h = false -> next_err next = None ->
  ServeHTTP_pool h pool next s =
  ((pool_Put (pool_Get h pool).2
      (serve_buffered (acquired h pool) (upstream_recorded next s).1
         (upstream_recorded next s).2).1.1,
    (serve_buffered (acquired h pool) (upstream_recorded next s).1
       (upstream_recorded next s).2).1.2),
   (serve_buffered (acquired h pool) (upstream_recorded next s).1
      (upstream_recorded next s).2).2).
Proof.
  intros Hs He. unfold ServeHTTP_pool, acquired, upstream_recorded.
  destruct (pool_Get h pool) as [tr idle]. cbn [fst snd].
  rewrite Hs, He. run_world.
  destruct (next_ServeHTTP (next_actions next) NewResponseRecorder _) as [rec s1].
  cbn [fst snd].
  destruct (serve_buffered (Reset tr) rec s1) as [[t' err] s']. reflexivity.
Qed.

Lemma Header_Get_Set (hdr : Header) (key value : string) :
  Header_Get (Header_Set hdr key value) key = value.
Proof. unfold Header_Get, Header_Set. now rewrite lookup_insert_eq. Qed.

Lemma Header_Get_absent (hdr : Header) (key : string) :
  hdr !! key = None -> Header_Get hdr key = "".
Proof. unfold Header_Get. now intros ->. Qed.

Lemma serve_buffered_ok (tr t : Transformer) (rec : ResponseRecorder)
    (result : list byte) (s1 s2 : World) :
  Buffered rec = true ->
  transform_Bytes tr (Buffer_Bytes rec) s1 = ((t, result, None), s2) ->
  serve_buffered tr rec s1 =
  ((t, None),
   mkWorld (corrected_header (header s2) result)
     (calls s2
      ++ (if 0 <? Status rec
          then [WriteHeaderCall (Status rec) (corrected_header (header s2) result)]
          else [])
      ++ [WriteCall result (corrected_header (header s2) result)])).
Proof.
  intros Hbuf Htr. unfold serve_buffered, corrected_header.
  rewrite Hbuf. cbn [negb]. unfold bind at 1. rewrite Htr.
  run_world.
  destruct (negb (String.eqb (Header_Get (header s2) "Content-Length") ""));
    destruct (0 <? Status rec); run_world; rewrite <- ?app_assoc; reflexivity.
Qed.

Lemma serve_buffered_error (tr t : Transformer) (rec : ResponseRecorder)
    (partial : list byte) (e : error) (s1 s2 : World) :
  Buffered rec = true ->
  transform_Bytes tr (Buffer_Bytes rec) s1 = ((t, partial, Some e), s2) ->
  serve_buffered tr rec s1 = ((t, Some e), s2).
Proof.
  intros Hbuf Htr. unfold serve_buffered.
  rewrite Hbuf. cbn [negb]. unfold bind at 1. now rewrite Htr.
Qed.

Lemma statuses_of_app (cs cs' : list Call) :
  statuses_of (cs ++ cs') = statuses_of cs ++ statuses_of cs'.
Proof. induction cs as [|[] cs IH]; cbn; congruence. Qed.

Lemma body_of_app (cs cs' : list Call) :
  body_of (cs ++ cs') = body_of cs ++ body_of cs'.
Proof.
  induction cs as [|[] cs IH]; cbn; rewrite <- ?app_assoc; congruence.
Qed.

End BufferedFacts.

Section BufferedClaims.
Context `{TL : TransformLib} `{RL : RecorderLib}.

(** C2.  In buffered mode, when the response headers hold a non-empty
    Content-Length once the upstream has returned, [ServeHTTP] sets it to
    the decimal length of the transformed body, and the status and the body
    are written after that, with the corrected header in place; when the
    headers hold no Content-Length, none is added. *)
Theorem ServeHTTP_corrects_Content_Length (h : Handler)
    (pool : list Transformer) (next : Next) (s s1 s2 : World)
    (rec : ResponseRecorder) (t : Transformer) (result : list byte) :
  Stream h = false ->
  next_err next = None ->
  upstream_recorded next s = (rec, s1) ->
  Buffered rec = true ->
  transform_Bytes (acquired h pool) (Buffer_Bytes rec) s1 = ((t, result, None), s2) ->
  let s' := (ServeHTTP_pool h pool next s).2 in
  (Header_Get (header s1) "Content-Length" <> "" ->
     header s' = Header_Set (header s1) "Content-Length" (itoa (length result)) /\
     Header_Get (header s') "Content-Length" = itoa (length result) /\
     atoi (Header_Get (header s') "Content-Length") = Some (length result) /\
     calls s' =
       calls s2
       ++ (if 0 <? Status rec then [WriteHeaderCall (Status rec) (header s')] else [])
       ++ [WriteCall result (header s')]) /\
  (header s1 !! "Content-Length" = None ->
     header s' = header s1 /\ header s' !! "Content-Length" = None).
Proof.
  intros Hs He Hrec Hbuf Htr s'.
  assert (Hs' : s' =
    mkWorld (corrected_header (header s2) result)
      (calls s2
       ++ (if 0 <? Status rec
           then [WriteHeaderCall (Status rec) (corrected_header (header s2) result)]
           else [])
       ++ [WriteCall result (corrected_header (header s2) result)])).
  { subst s'. rewrite ServeHTTP_pool_buffered by assumption.
    rewrite Hrec. cbn [fst snd].
    now rewrite (serve_buffered_ok _ _ _ _ _ _ Hbuf Htr). }
  assert (Hh2 : header s2 = header s1).
  { rewrite transform_Bytes_run in Htr. now inversion Htr. }
  rewrite Hs'. cbn [header calls]. unfold corrected_header. rewrite Hh2. split.
  - intros Hcl. apply String.eqb_neq in Hcl. rewrite Hcl. cbn [negb].
    rewrite Header_Get_Set, atoi_itoa. repeat split.
  - intros Hcl. rewrite (Header_Get_absent _ _ Hcl). cbn [String.eqb negb].
    now split.
Qed.

(** C6.  In buffered mode, when the one-shot transform of the collected
    body returns an error, [ServeHTTP] returns that error; the header map is
    as the upstream left it and the only calls added after the upstream
    returned are the reset and the pass of [transform.Bytes]: no status and
    no body byte reach the underlying writer. *)
Theorem ServeHTTP_transform_error_writes_nothing (h : Handler)
    (pool : list Transformer) (next : Next) (s s1 s2 : World)
    (rec : ResponseRecorder) (t : Transformer) (partial : list byte) (e : error) :
  Stream h = false ->
  next_err next = None ->
  upstream_recorded next s = (rec, s1) ->
  Buffered rec = true ->
  transform_Bytes (acquired h pool) (Buffer_Bytes rec) s1 = ((t, partial, Some e), s2) ->
  (ServeHTTP_pool h pool next s).1.2 = Some e /\
  header (ServeHTTP_pool h pool next s).2 = header s1 /\
  calls (ServeHTTP_pool h pool next s).2 =
    calls s1 ++ [ResetCall; TransformCall (Buffer_Bytes rec) true] /\
  statuses_of (calls (ServeHTTP_pool h pool next s).2) = statuses_of (calls s1) /\
  body_of (calls (ServeHTTP_pool h pool next s).2) = body_of (calls s1) /\
  filter (fun c => is_writer_call c = true) (calls (ServeHTTP_pool h pool next s).2)
    = filter (fun c => is_writer_call c = true) (calls s1).
Proof.
  intros Hs He Hrec Hbuf Htr.
  rewrite ServeHTTP_pool_buffered by assumption. rewrite Hrec. cbn [fst snd].
  rewrite (serve_buffered_error _ _ _ _ _ _ _ Hbuf Htr). cbn [fst snd].
  rewrite transform_Bytes_run in Htr. inversion Htr; subst. cbn [header calls].
  rewrite <- app_assoc. cbn [app].
  rewrite statuses_of_app, body_of_app, filter_app. cbn.
  rewrite !app_nil_r. repeat split.
Qed.

(** C8.  In buffered mode, when the recorder signals that nothing was
    buffered, [ServeHTTP] returns no error and leaves the world exactly as
    it was when the upstream returned: no transform pass, no status, no
    header change and no body byte. *)
Theorem ServeHTTP_unbuffered_is_noop (h : Handler) (pool : list Transformer)
    (next : Next) (s s1 : World) (rec : ResponseRecorder) :
  Stream h = false ->
  next_err next = None ->
  upstream_recorded next s = (rec, s1) ->
  Buffered rec = false ->
  ServeHTTP_pool h pool next s =
    ((pool_Put (pool_Get h pool).2 (acquired h pool), None), s1) /\
  transforms_of (calls (ServeHTTP_pool h pool next s).2) = transforms_of (calls s1).
Proof.
  intros Hs He Hrec Hbuf.
  rewrite ServeHTTP_pool_buffered by assumption. rewrite Hrec. cbn [fst snd].
  unfold serve_buffered. rewrite Hbuf. cbn [negb]. now split.
Qed.

End BufferedClaims.

(** ** The streaming branch of [ServeHTTP] *)

Section StreamFacts.
Context `{TL : TransformLib} `{RL : RecorderLib}.

Lemma next_ServeHTTP_cons (a : Action) (acts : list Action)
    (fw : replaceWriter) (s : World) :
  next_ServeHTTP (a :: acts) fw s =
  next_ServeHTTP acts (stream_step a fw s).1 (stream_step a fw s).2.
Proof.
  destruct a; cbn [next_ServeHTTP stream_step rw_WriteHeader rw_Write
                   replaceWriter_ResponseWriter]; unfold bind.
  - reflexivity.
  - reflexivity.
  - now destruct (fw_WriteHeader fw status s).
  - now destruct (fw_Write fw d s).
Qed.

Lemma fw_WriteHeader_first (fw : replaceWriter) (st : Z) (s : World) :
  wroteHeader fw = false ->
  fw_WriteHeader fw st s =
  (mkReplaceWriter true (tw fw),
   mkWorld (Header_Del (header s) "Content-Length")
     (calls s ++ [WriteHeaderCall st (Header_Del (header s) "Content-Length")])).
Proof. intros E. unfold fw_WriteHeader. rewrite E. reflexivity. Qed.

Lemma fw_WriteHeader_ignored (fw : replaceWriter) (st : Z) (s : World) :
  wroteHeader fw = true -> fw_WriteHeader fw st s = (fw, s).
Proof. intros E. unfold fw_WriteHeader. rewrite E. reflexivity. Qed.

Lemma Writer_Write_run (t : Transformer) (d : list byte) (s : World) :
  Writer_Write t d s =
  (((Transform t d false).1.1, (Transform t d false).2),
   mkWorld (header s)
     (calls s ++ [TransformCall d false;
                  WriteCall (Transform t d false).1.2 (header s)])).
Proof.
  run_world. destruct (Transform t d false) as [[t' out] err].
  run_world. now rewrite <- app_assoc.
Qed.

Lemma Writer_Close_run (t : Transformer) (s : World) :
  Writer_Close t s =
  (((Transform t [] true).1.1, (Transform t [] true).2),
   mkWorld (header s)
     (calls s ++ [TransformCall [] true;
                  WriteCall (Transform t [] true).1.2 (header s)])).
Proof.
  run_world. destruct (Transform t [] true) as [[t' out] err].
  run_world. now rewrite <- app_assoc.
Qed.

Lemma fw_Write_after_header (fw : replaceWriter) (d : list byte) (s : World) :
  wroteHeader fw = true ->
  fw_Write fw d s =
  (mkReplaceWriter true (Transform (tw fw) d false).1.1,
   mkWorld (header s)
     (calls s ++ [TransformCall d false;
                  WriteCall (Transform (tw fw) d false).1.2 (header s)])).
Proof.
  intros E. unfold fw_Write. rewrite E. cbn [negb]. unfold bind, ret.
  rewrite Writer_Write_run. now rewrite E.
Qed.

Lemma fw_Write_first (fw : replaceWriter) (d : list byte) (s : World) :
  wroteHeader fw = false ->
  fw_Write fw d s =
  (mkReplaceWriter true (Transform (tw fw) d false).1.1,
   mkWorld (Header_Del (header s) "Content-Length")
     (calls s ++ [WriteHeaderCall 200 (Header_Del (header s) "Content-Length");
                  TransformCall d false;
                  WriteCall (Transform (tw fw) d false).1.2
                    (Header_Del (header s) "Content-Length")])).
Proof.
  intros E. unfold fw_Write. rewrite E. cbn [negb]. unfold bind at 1.
  rewrite fw_WriteHeader_first by assumption. unfold bind, ret.
  rewrite Writer_Write_run. cbn [fst snd header calls tw wroteHeader].
  now rewrite <- app_assoc.
Qed.

(** Facts on the observations. *)
Lemma untouched_app (cs cs' : list Call) :
  untouched (cs ++ cs') = untouched cs && untouched cs'.
Proof. apply forallb_app. Qed.

Lemma untouched_statuses (cs : list Call) :
  untouched cs = true -> statuses_of cs = [].
Proof.
  induction cs as [|[] cs IH]; cbn; try discriminate; auto.
Qed.

Lemma finalized_app (cs cs' : list Call) :
  finalized_without_length cs = true ->
  finalized_without_length (cs ++ cs') = true.
Proof. induction cs as [|[] cs IH]; cbn; try discriminate; auto. Qed.

Lemma finalized_after_untouched (cs cs' : list Call) :
  untouched cs = true ->
  finalized_without_length (cs ++ cs') = finalized_without_length cs'.
Proof. induction cs as [|[] cs IH]; cbn; try discriminate; auto. Qed.

Lemma finalized_sent_headers (cs : list Call) (at_return : Header) :
  finalized_without_length cs = true ->
  sent_headers_from cs at_return !! "Content-Length" = None.
Proof.
  induction cs as [|[] cs IH]; cbn; try discriminate; auto.
  intros H. now apply bool_decide_eq_true in H.
Qed.

Lemma finalized_header_before_body (cs : list Call) :
  finalized_without_length cs = true -> header_before_body cs = true.
Proof. induction cs as [|[] cs IH]; cbn; try discriminate; auto. Qed.

Lemma deleted_length_is_absent (hdr : Header) :
  bool_decide (Header_Del hdr "Content-Length" !! "Content-Length" = None) = true.
Proof. apply bool_decide_eq_true. apply lookup_delete_eq. Qed.

Lemma stream_step_protocol (a : Action) (fw : replaceWriter) (s : World) :
  header_protocol fw s = true ->
  header_protocol (stream_step a fw s).1 (stream_step a fw s).2 = true.
Proof.
  unfold header_protocol. intros H.
  destruct a as [k v|k|st|d]; cbn [stream_step fst snd calls]; try exact H.
  - destruct (wroteHeader fw) eqn:E.
    + rewrite fw_WriteHeader_ignored by assumption. cbn [fst snd]. now rewrite E.
    + rewrite fw_WriteHeader_first by assumption. cbn [fst snd wroteHeader calls].
      rewrite finalized_after_untouched by assumption. apply deleted_length_is_absent.
  - destruct (wroteHeader fw) eqn:E.
    + rewrite fw_Write_after_header by assumption. cbn [fst snd wroteHeader calls].
      now apply finalized_app.
    + rewrite fw_Write_first by assumption. cbn [fst snd wroteHeader calls].
      rewrite finalized_after_untouched by assumption. apply deleted_length_is_absent.
Qed.

Lemma stream_step_wroteHeader (a : Action) (fw : replaceWriter) (s : World) :
  wroteHeader (stream_step a fw s).1 = wroteHeader fw || is_write_action a.
Proof.
  destruct a as [k v|k|st|d]; cbn [stream_step fst is_write_action];
    rewrite ?orb_false_r, ?orb_true_r; try reflexivity.
  - destruct (wroteHeader fw) eqn:E.
    + now rewrite fw_WriteHeader_ignored.
    + now rewrite fw_WriteHeader_first.
  - destruct (wroteHeader fw) eqn:E.
    + now rewrite fw_Write_after_header.
    + now rewrite fw_Write_first.
Qed.

Lemma stream_step_statuses (a : Action) (fw : replaceWriter) (s : World) :
  statuses_of (calls (stream_step a fw s).2) =
  statuses_of (calls s) ++
  (if wroteHeader fw then [] else first_status [a]).
Proof.
  destruct a as [k v|k|st|d]; cbn [stream_step snd calls first_status].
  - now destruct (wroteHeader fw); rewrite app_nil_r.
  - now destruct (wroteHeader fw); rewrite app_nil_r.
  - destruct (wroteHeader fw) eqn:E.
    + rewrite fw_WriteHeader_ignored by assumption. now rewrite app_nil_r.
    + rewrite fw_WriteHeader_first by assumption. cbn [snd calls].
      now rewrite statuses_of_app.
  - destruct (wroteHeader fw) eqn:E.
    + rewrite fw_Write_after_header by assumption. cbn [snd calls].
      now rewrite statuses_of_app.
    + rewrite fw_Write_first by assumption. cbn [snd calls].
      now rewrite statuses_of_app.
Qed.

Lemma stream_step_body (a : Action) (fw : replaceWriter) (s : World) :
  body_of (calls (stream_step a fw s).2) =
  body_of (calls s) ++
  match a with
  | DoWrite d => (Transform (tw fw) d false).1.2
  | _ => []
  end /\
  tw (stream_step a fw s).1 =
  match a with
  | DoWrite d => (Transform (tw fw) d false).1.1
  | _ => tw fw
  end.
Proof.
  destruct a as [k v|k|st|d]; cbn [stream_step fst snd calls].
  - now rewrite app_nil_r.
  - now rewrite app_nil_r.
  - destruct (wroteHeader fw) eqn:E.
    + rewrite fw_WriteHeader_ignored by assumption. now rewrite app_nil_r.
    + rewrite fw_WriteHeader_first by assumption. cbn [fst snd calls tw].
      rewrite body_of_app. now cbn.
  - destruct (wroteHeader fw) eqn:E.
    + rewrite fw_Write_after_header by assumption. cbn [fst snd calls tw].
      rewrite body_of_app. cbn. now rewrite app_nil_r.
    + rewrite fw_Write_first by assumption. cbn [fst snd calls tw].
      rewrite body_of_app. cbn. now rewrite app_nil_r.
Qed.

(** The same facts over the whole run of the upstream. *)
Lemma stream_protocol (acts : list Action) : forall fw s,
  header_protocol fw s = true ->
  header_protocol (next_ServeHTTP acts fw s).1 (next_ServeHTTP acts fw s).2 = true.
Proof.
  induction acts as [|a acts IH]; intros fw s H; [exact H|].
  rewrite next_ServeHTTP_cons. apply IH. now apply stream_step_protocol.
Qed.

Lemma stream_wroteHeader (acts : list Action) : forall fw s,
  wroteHeader (next_ServeHTTP acts fw s).1 =
  wroteHeader fw || existsb is_write_action acts.
Proof.
  induction acts as [|a acts IH]; intros fw s.
  - cbn. now rewrite orb_false_r.
  - rewrite next_ServeHTTP_cons, IH, stream_step_wroteHeader.
    cbn [existsb]. now rewrite orb_assoc.
Qed.

Lemma stream_statuses (acts : list Action) : forall fw s,
  statuses_of (calls (next_ServeHTTP acts fw s).2) =
  statuses_of (calls s) ++ (if wroteHeader fw then [] else first_status acts).
Proof.
  induction acts as [|a acts IH]; intros fw s.
  - cbn. now destruct (wroteHeader fw); rewrite app_nil_r.
  - rewrite next_ServeHTTP_cons, IH, stream_step_statuses, stream_step_wroteHeader.
    rewrite <- app_assoc. f_equal.
    destruct (wroteHeader fw); [reflexivity|].
    destruct a; reflexivity.
Qed.


(** The streaming branch, step by step. *)
Lemma ServeHTTP_pool_stream (h : Handler) (pool : list Transformer)
    (next : Next) (s : World) :
  Stream h = true ->
  ServeHTTP_pool h pool next s =
  let s0 := mkWorld (header s) (calls s ++ [ResetCall; ResetCall]) in
  let r := next_ServeHTTP (next_actions next)
             (mkReplaceWriter false (Reset (acquired h pool))) s0 in
  let t := tw r.1 in
  ((pool_Put (pool_Get h pool).2 (Transform t [] true).1.1, next_err next),
   mkWorld (header r.2)
     (calls r.2 ++ [TransformCall [] true;
                    WriteCall (Transform t [] true).1.2 (header r.2)])).
Proof.
  intros Hs. unfold ServeHTTP_pool, acquired.
  destruct (pool_Get h pool) as [tr idle]. rewrite Hs.
  cbv beta iota delta [bind ret log t_Reset transform_NewWriter].
  cbn [fst snd header calls]. rewrite <- app_assoc. cbn [app].
  destruct (next_ServeHTTP _ _ _) as [fw s1]. cbn [fst snd].
  rewrite Writer_Close_run. reflexivity.
Qed.

End StreamFacts.

Section StreamClaims.
Context `{TL : TransformLib} `{RL : RecorderLib}.

Lemma first_status_at_most_one (acts : list Action) :
  (length (first_status acts) <= 1)%nat.
Proof. induction acts as [|[] acts IH]; cbn; lia. Qed.

(** C3 (as amended).  In streaming mode, for every response on which the
    upstream calls [WriteHeader] or [Write] at least once, whatever header
    edits are interleaved: the first call that reaches the underlying writer
    is a [WriteHeader] issued after Content-Length was deleted, so the
    headers the server sends carry no Content-Length and no body byte
    precedes them; the status sent is the upstream's, or 200 when the first
    call of the upstream is a [Write]. *)
Theorem stream_strips_Content_Length (h : Handler) (pool : list Transformer)
    (next : Next) (s : World) :
  Stream h = true ->
  untouched (calls s) = true ->
  existsb is_write_action (next_actions next) = true ->
  let s' := (ServeHTTP_pool h pool next s).2 in
  finalized_without_length (calls s') = true /\
  sent_headers s' !! "Content-Length" = None /\
  header_before_body (calls s') = true /\
  statuses_of (calls s') = first_status (next_actions next).
Proof.
  intros Hs Hun Hw s'. subst s'.
  rewrite ServeHTTP_pool_stream by assumption. cbv zeta. cbn [snd calls header].
  set (fw0 := mkReplaceWriter false (Reset (acquired h pool))).
  set (s0 := mkWorld (header s) (calls s ++ [ResetCall; ResetCall])).
  assert (H0 : header_protocol fw0 s0 = true).
  { unfold header_protocol, fw0, s0. cbn [wroteHeader calls].
    rewrite untouched_app, Hun. reflexivity. }
  pose proof (stream_protocol (next_actions next) fw0 s0 H0) as Hp.
  unfold header_protocol in Hp.
  rewrite stream_wroteHeader, Hw, orb_true_r in Hp.
  assert (Hfin : finalized_without_length
                   (calls (next_ServeHTTP (next_actions next) fw0 s0).2
                    ++ [TransformCall [] true;
                        WriteCall
                          (Transform (tw (next_ServeHTTP (next_actions next) fw0 s0).1)
                             [] true).1.2
                          (header (next_ServeHTTP (next_actions next) fw0 s0).2)])
                 = true) by now apply finalized_app.
  split; [exact Hfin|]. split; [|split].
  - unfold sent_headers. cbn [calls header]. now apply finalized_sent_headers.
  - now apply finalized_header_before_body.
  - rewrite statuses_of_app, stream_statuses. cbn [wroteHeader fw0 s0 calls].
    rewrite statuses_of_app, (untouched_statuses _ Hun). cbn.
    now rewrite app_nil_r.
Qed.

(** C10.  In streaming mode the underlying writer's [WriteHeader] is
    invoked at most once per response, with the status of the upstream's
    first [WriteHeader], or 200 when a [Write] comes first; a [WriteHeader]
    on a [replaceWriter] that has written its header changes nothing,
    whatever the status; and a [Write] on one that has not finalizes the
    headers with status 200 before it passes the bytes on. *)
Theorem stream_WriteHeader_at_most_once (h : Handler) (pool : list Transformer)
    (next : Next) (s : World) :
  Stream h = true ->
  statuses_of (calls (ServeHTTP_pool h pool next s).2)
    = statuses_of (calls s) ++ first_status (next_actions next) /\
  (length (first_status (next_actions next)) <= 1)%nat /\
  (forall (fw : replaceWriter) (status : Z) (s0 : World),
      wroteHeader fw = true -> fw_WriteHeader fw status s0 = (fw, s0)) /\
  (forall (fw : replaceWriter) (d : list byte) (s0 : World),
      wroteHeader fw = false ->
      wroteHeader (fw_Write fw d s0).1 = true /\
      calls (fw_Write fw d s0).2 =
        calls s0 ++
        [WriteHeaderCall 200 (Header_Del (header s0) "Content-Length");
         TransformCall d false;
         WriteCall (Transform (tw fw) d false).1.2
           (Header_Del (header s0) "Content-Length")]).
Proof.
  intros Hs. split; [|split; [|split]].
  - rewrite ServeHTTP_pool_stream by assumption. cbv zeta. cbn [snd calls].
    rewrite statuses_of_app, stream_statuses. cbn [wroteHeader calls].
    rewrite statuses_of_app. cbn. now rewrite !app_nil_r.
  - apply first_status_at_most_one.
  - intros fw status s0 E. now apply fw_WriteHeader_ignored.
  - intros fw d s0 E. now rewrite fw_Write_first.
Qed.

End StreamClaims.

(** ** The replacement engine *)

Section LiteralScan.
Variables old new : list byte.
Hypothesis old_not_empty : old <> [].

Local Abbreviation scan := (literal_scan old new 0).






End LiteralScan.

Section EngineFacts.
Context `{RX : RegexpLib}.

Lemma stage_scan_pending (st : Stage) (p : list byte) :
  stage_scan (mkStage (pattern st) (template st) p) = stage_scan st.
Proof. reflexivity. Qed.

Lemma stage_Transform_run (st : Stage) (src : list byte) (atEOF : bool) :
  stage_Transform st src atEOF =
  (mkStage (pattern st) (template st)
     (eof_flush (stage_scan st (pending st ++ src) atEOF) atEOF).2,
   (eof_flush (stage_scan st (pending st ++ src) atEOF) atEOF).1).
Proof.
  unfold stage_Transform.
  destruct (stage_scan st (pending st ++ src) atEOF) as [out keep].
  now destruct atEOF.
Qed.



(** Facts on resets and on the chain [New] builds. *)
Lemma chain_Reset_pending (ch : list Stage) :
  Forall (fun st => pending st = []) (chain_Reset ch).
Proof. unfold chain_Reset. apply Forall_map. now apply Forall_true. Qed.

Lemma chain_Reset_fresh (ch : list Stage) :
  Forall (fun st => pending st = []) ch -> chain_Reset ch = ch.
Proof.
  induction 1 as [|st ch Hp _ IH]; [reflexivity|].
  unfold chain_Reset in *. cbn [map]. rewrite IH. f_equal.
  destruct st as [pat tmpl p]. cbn in Hp. now subst p.
Qed.

Lemma chain_Reset_idem (ch : list Stage) :
  chain_Reset (chain_Reset ch) = chain_Reset ch.
Proof. apply chain_Reset_fresh, chain_Reset_pending. Qed.

Lemma chain_Transform_rules (ch : list Stage) : forall src atEOF,
  chain_Reset (chain_Transform ch src atEOF).1 = chain_Reset ch.
Proof.
  induction ch as [|st rest IH]; intros src atEOF; [reflexivity|].
  cbn [chain_Transform]. rewrite stage_Transform_run.
  specialize (IH (eof_flush (stage_scan st (pending st ++ src) atEOF) atEOF).1 atEOF).
  destruct (chain_Transform rest _ atEOF) as [rest' out'].
  cbn [fst chain_Reset map] in *. now rewrite IH.
Qed.

Lemma chain_Transform_eof_pending (ch : list Stage) : forall src,
  Forall (fun st => pending st = []) (chain_Transform ch src true).1.
Proof.
  induction ch as [|st rest IH]; intros src; [constructor|].
  cbn [chain_Transform]. rewrite stage_Transform_run.
  specialize (IH (eof_flush (stage_scan st (pending st ++ src) true) true).1).
  destruct (chain_Transform rest _ true) as [rest' out'].
  cbn [fst] in *. constructor; [reflexivity | exact IH].
Qed.

Lemma chain_Transform_app (ch1 ch2 : list Stage) (src : list byte) (atEOF : bool) :
  (chain_Transform (ch1 ++ ch2) src atEOF).2 =
  (chain_Transform ch2 (chain_Transform ch1 src atEOF).2 atEOF).2.
Proof.
  revert src. induction ch1 as [|st rest IH]; intros src; [reflexivity|].
  cbn [app chain_Transform].
  destruct (stage_Transform st src atEOF) as [st' out].
  specialize (IH out).
  destruct (chain_Transform (rest ++ ch2) out atEOF) as [r1 o1].
  destruct (chain_Transform rest out atEOF) as [r2 o2].
  exact IH.
Qed.

Lemma new_transform_pending (repl : @Replacement SpecEngine) :
  Forall (fun st => pending st = []) (new_transform repl).
Proof.
  unfold new_transform. destruct (re repl); repeat constructor.
Qed.

Lemma pool_New_pending (h : @Handler SpecEngine) :
  Forall (fun st => pending st = []) (pool_New h).
Proof.
  unfold pool_New. cbn [transform_Chain SpecEngine].
  induction (Replacements h) as [|repl rest IH]; [constructor|].
  cbn [map concat]. apply Forall_app. split; [apply new_transform_pending | exact IH].
Qed.

Lemma pool_New_Reset (h : @Handler SpecEngine) : Reset (pool_New h) = pool_New h.
Proof. apply chain_Reset_fresh, pool_New_pending. Qed.

(** The instance in use is the chain [New] builds, whatever the pool held. *)
Lemma acquired_is_New (h : @Handler SpecEngine) (pool : list Transformer) :
  pool_of h pool -> acquired h pool = pool_New h.
Proof.
  intros Hpool. unfold acquired, pool_Get.
  destruct pool as [|t rest]; cbn [fst].
  - apply pool_New_Reset.
  - now inversion Hpool.
Qed.


Lemma buffered_output_chain (ch : list Stage) (b : list byte) :
  @buffered_output SpecEngine ch b = (chain_Transform (chain_Reset ch) b true).2.
Proof.
  unfold buffered_output. rewrite transform_Bytes_run.
  cbn [fst snd Transform Reset SpecEngine].
  now destruct (chain_Transform (chain_Reset ch) b true).
Qed.

End EngineFacts.

(** ** Streaming within the lookahead *)

Section LookaheadFacts.
Context `{ML : MatcherLib}.








(** A chain of literal rules is within the lookahead on every input. *)
Lemma literal_chain_within_lookahead (ch : list Stage) :
  Forall (fun st => match pattern st with Literal _ => True | Regex _ => False end) ch ->
  Forall stage_lawful ch /\ forall x, chain_within_lookahead ch x = true.
Proof.
  induction 1 as [|st rest Hst _ [IHl IHw]]; [now split|].
  split.
  - constructor; [|exact IHl]. unfold stage_lawful. now destruct (pattern st).
  - intros x. cbn [chain_within_lookahead]. unfold stage_within_lookahead.
    destruct (pattern st); [apply IHw | contradiction].
Qed.

End LookaheadFacts.

Section StreamingClaim.
Context `{ML : MatcherLib} `{RL : RecorderLib}.


End StreamingClaim.

Section EngineClaims.
Context `{RX : RegexpLib} `{RL : RecorderLib}.

Lemma stream_rules (acts : list Action) : forall (fw : @replaceWriter SpecEngine) s,
  chain_Reset (tw (next_ServeHTTP acts fw s).1) = chain_Reset (tw fw).
Proof.
  induction acts as [|a acts IH]; intros fw s; [reflexivity|].
  rewrite next_ServeHTTP_cons, IH.
  destruct (stream_step_body a fw s) as [_ ->].
  destruct a; try reflexivity.
  cbn [Transform SpecEngine].
  pose proof (chain_Transform_rules (tw fw) d false) as H.
  now destruct (chain_Transform (tw fw) d false).
Qed.

Lemma pool_New_cons (repl : @Replacement SpecEngine) (rules : list Replacement)
    (stream : bool) (pool : option (list Transformer)) :
  pool_New (mkHandler (repl :: rules) stream pool) =
  new_transform repl ++ pool_New (mkHandler rules stream pool).
Proof. reflexivity. Qed.

(** C7.  The rules of a chain compose as a pipeline in list order: the
    one-shot transform by a chain is the transform by its first rule
    followed, on that rule's complete output, by the transform by the rest.
    The chain [A -> B; B -> C] turns "A" into "C"; the chain
    [B -> C; A -> B] turns it into "B". *)
Theorem rules_compose_in_order :
  (forall (repl : @Replacement SpecEngine) (rules : list Replacement)
          (stream : bool) (pool : option (list Transformer)) (b : list byte),
      buffered_output (pool_New (mkHandler (repl :: rules) stream pool)) b =
      buffered_output (pool_New (mkHandler rules stream pool))
        (buffered_output (pool_New (mkHandler [repl] stream pool)) b)) /\
  (let h := (Provision (config [literal_rule "A" "B"; literal_rule "B" "C"] false)).1 in
   buffered_output (pool_New h) (list_byte_of_string "A") = list_byte_of_string "C") /\
  (let h := (Provision (config [literal_rule "B" "C"; literal_rule "A" "B"] false)).1 in
   buffered_output (pool_New h) (list_byte_of_string "A") = list_byte_of_string "B").
Proof.
  split; [|split; reflexivity].
  intros repl rules stream pool b.
  rewrite !buffered_output_chain, !pool_New_cons.
  change (pool_New (mkHandler [] stream pool)) with (@nil Stage).
  rewrite app_nil_r. unfold chain_Reset. rewrite map_app.
  apply chain_Transform_app.
Qed.

Lemma ServeHTTP_pool_same_acquired (h : @Handler SpecEngine)
    (pool pool' : list Transformer) (next : Next) (s : World) :
  acquired h pool = acquired h pool' ->
  (ServeHTTP_pool h pool next s).2 = (ServeHTTP_pool h pool' next s).2 /\
  (ServeHTTP_pool h pool next s).1.2 = (ServeHTTP_pool h pool' next s).1.2.
Proof.
  unfold acquired, ServeHTTP_pool.
  destruct (pool_Get h pool) as [tr idle], (pool_Get h pool') as [tr' idle'].
  cbn [fst]. intros E.
  cbv beta iota delta [bind ret log t_Reset transform_NewWriter].
  cbn [fst snd header calls]. rewrite E.
  destruct (Stream h).
  - destruct (next_ServeHTTP _ _ _) as [fw s1].
    destruct (Writer_Close (tw fw) s1) as [[t' e] s2]. now split.
  - destruct (next_ServeHTTP _ _ _) as [rec s1].
    destruct (next_err next); [now split|].
    destruct (serve_buffered _ rec s1) as [[t' e] s2]. now split.
Qed.

Lemma ServeHTTP_pool_returns (h : @Handler SpecEngine)
    (pool : list Transformer) (next : Next) (s : World) :
  exists t : list Stage,
    (ServeHTTP_pool h pool next s).1.1 = t :: (pool_Get h pool).2 /\
    Forall (fun st => pending st = []) t /\
    chain_Reset t = chain_Reset (acquired h pool).
Proof.
  destruct (Stream h) eqn:Hs.
  - rewrite ServeHTTP_pool_stream by assumption. cbv zeta. cbn [fst snd pool_Put].
    eexists. split; [reflexivity|]. cbn [Transform SpecEngine].
    match goal with |- context [chain_Transform ?c [] true] =>
      pose proof (chain_Transform_eof_pending c []) as Hp;
      pose proof (chain_Transform_rules c [] true) as Hr;
      destruct (chain_Transform c [] true) as [t' out] end.
    cbn [fst] in *. split; [exact Hp|].
    rewrite Hr, stream_rules. cbn [tw Reset SpecEngine]. apply chain_Reset_idem.
  - unfold ServeHTTP_pool, acquired.
    destruct (pool_Get h pool) as [tr idle]. rewrite Hs.
    cbv beta iota delta [bind ret log t_Reset]. cbn [fst snd header calls].
    destruct (next_ServeHTTP _ _ _) as [rec s1].
    assert (Hfresh : Forall (fun st => pending st = []) (chain_Reset tr))
      by apply chain_Reset_pending.
    destruct (next_err next).
    { eexists. split; [reflexivity|]. split; [exact Hfresh | reflexivity]. }
    unfold serve_buffered. destruct (Buffered rec); cbn [negb].
    2:{ eexists. split; [reflexivity|]. split; [exact Hfresh | reflexivity]. }
    unfold bind at 1. rewrite transform_Bytes_run. cbn [Transform Reset SpecEngine].
    pose proof (chain_Transform_eof_pending (chain_Reset (chain_Reset tr))
                  (Buffer_Bytes rec)) as Hp.
    pose proof (chain_Transform_rules (chain_Reset (chain_Reset tr))
                  (Buffer_Bytes rec) true) as Hr.
    destruct (chain_Transform (chain_Reset (chain_Reset tr)) (Buffer_Bytes rec) true)
      as [t' out].
    cbn [fst] in *. rewrite chain_Reset_idem in Hr.
    run_world.
    destruct (negb (String.eqb (Header_Get (header s1) "Content-Length") ""));
      destruct (0 <? Status rec); run_world;
      (eexists; split; [reflexivity|]; split; [exact Hp | exact Hr]).
Qed.

(** C9.  Whatever Pending Buffers the idle transformers of the pool hold,
    the transformer a request works with has empty Pending Buffers (it is
    the chain [New] builds), the response and the error of the request are
    those of a request served from an empty pool, and the transformer goes
    back to the pool with empty Pending Buffers, as an instance of the same
    chain. *)
Theorem pooled_transformer_starts_empty (h : @Handler SpecEngine)
    (pool : list Transformer) (next : Next) (s : World) :
  pool_of h pool ->
  Forall (fun st => pending st = []) (acquired h pool) /\
  acquired h pool = pool_New h /\
  (ServeHTTP_pool h pool next s).2 = (ServeHTTP_pool h [] next s).2 /\
  (ServeHTTP_pool h pool next s).1.2 = (ServeHTTP_pool h [] next s).1.2 /\
  (exists t : list Stage,
      (ServeHTTP_pool h pool next s).1.1 = t :: (pool_Get h pool).2 /\
      Forall (fun st => pending st = []) t) /\
  pool_of h (ServeHTTP_pool h pool next s).1.1.
Proof.
  intros Hpool.
  pose proof (acquired_is_New h pool Hpool) as Hacq.
  split; [rewrite Hacq; apply pool_New_pending|].
  split; [exact Hacq|].
  assert (Hsame : acquired h pool = acquired h [])
    by (rewrite Hacq; symmetry; apply acquired_is_New; constructor).
  destruct (ServeHTTP_pool_same_acquired h pool [] next s Hsame) as [Hworld Herr].
  split; [exact Hworld|]. split; [exact Herr|].
  destruct (ServeHTTP_pool_returns h pool next s) as (t & Ht & Hp & Hr).
  split; [now exists t|].
  rewrite Ht. constructor.
  - cbn [Reset SpecEngine]. rewrite Hr, Hacq. apply pool_New_Reset.
  - unfold pool_Get. destruct pool as [|t0 rest]; cbn [snd]; [constructor|].
    now inversion Hpool.
Qed.

End EngineClaims.

(** ** Closed examples *)

Section ServeExamples.
#[local] Existing Instance ExampleLib.

(** C2, on the chain [Foo -> Ba] and an upstream that declares
    Content-Length 3 and writes "Foo": the header becomes "2". *)
Lemma ServeHTTP_corrects_Content_Length_witness :
  let h := (Provision (config [literal_rule "Foo" "Ba"] false)).1 in
  let next := mkNext [DoHeaderSet "Content-Length" "3"; DoWriteHeader 200;
                      DoWrite (list_byte_of_string "Foo")] None in
  Header_Get (header (@ServeHTTP_pool _ BufferingRecorder h [] next empty_world).2)
    "Content-Length" = "2".
Proof.
  intros h next.
  edestruct (@ServeHTTP_corrects_Content_Length _ BufferingRecorder
               h [] next empty_world) as [Hset _]; [reflexivity..|].
  edestruct Hset as (_ & Hget & _); [vm_compute; discriminate|].
  exact Hget.
Defined.

(** C6, on a transformer whose conversion rejects the byte 0xff. *)
Lemma ServeHTTP_transform_error_writes_nothing_witness :
  let h := @mkHandler StrictLib [literal_rule "Foo" "Bar"] false (Some []) in
  let next := mkNext [DoWriteHeader 200; DoWrite [xff]] None in
  let r := @ServeHTTP_pool StrictLib BufferingRecorder h [] next empty_world in
  r.1.2 = Some "encoding: invalid UTF-8" /\
  statuses_of (calls r.2) = [] /\ body_of (calls r.2) = [].
Proof.
  intros h next r.
  edestruct (@ServeHTTP_transform_error_writes_nothing StrictLib BufferingRecorder
               h [] next empty_world) as (He & _ & _ & Hst & Hbo & _);
    [reflexivity..|].
  split; [exact He|]. split; [exact Hst | exact Hbo].
Defined.

(** C8, on a recorder that declines to buffer: the upstream's calls went
    straight to the underlying writer and [ServeHTTP] adds nothing. *)
Lemma ServeHTTP_unbuffered_is_noop_witness :
  let h := (Provision (config [literal_rule "Foo" "Bar"] false)).1 in
  let next := mkNext [DoWriteHeader 200; DoWrite (list_byte_of_string "Foo")] None in
  let r := @ServeHTTP_pool _ DecliningRecorder h [] next empty_world in
  r.1.2 = None /\
  transforms_of (calls r.2) = [] /\
  body_of (calls r.2) = list_byte_of_string "Foo".
Proof.
  intros h next r.
  edestruct (@ServeHTTP_unbuffered_is_noop _ DecliningRecorder
               h [] next empty_world) as [Hrun Htr]; [reflexivity..|].
  subst r. rewrite Htr, Hrun. repeat split.
Defined.

(** C3, on an upstream that declares Content-Length 6, writes "fo", calls
    [WriteHeader(404)] too late, and writes "obar". *)
Lemma stream_strips_Content_Length_witness :
  let h := (Provision (config [literal_rule "foobar" "X"] true)).1 in
  let next := mkNext [DoHeaderSet "Content-Length" "6";
                      DoWrite (list_byte_of_string "fo"); DoWriteHeader 404;
                      DoWrite (list_byte_of_string "obar")] None in
  let s' := (@ServeHTTP_pool _ BufferingRecorder h [] next empty_world).2 in
  sent_headers s' !! "Content-Length" = None /\
  header_before_body (calls s') = true /\
  statuses_of (calls s') = [200].
Proof.
  intros h next s'.
  destruct (@stream_strips_Content_Length _ BufferingRecorder
              h [] next empty_world eq_refl eq_refl eq_refl)
    as (_ & Hsent & Hbody & Hst).
  split; [exact Hsent|]. split; [exact Hbody | exact Hst].
Defined.

(** C3 as stated fails: the upstream declares Content-Length 0 and returns
    without calling [WriteHeader] or [Write]; nothing deletes the header, no
    [WriteHeader] reaches the underlying writer, and the response the server
    sends carries Content-Length. *)
Lemma stream_keeps_Content_Length_without_writes :
  let h := (Provision (config [literal_rule "Foo" "Bar"] true)).1 in
  let next := mkNext [DoHeaderSet "Content-Length" "0"] None in
  exists h' s',
    @ServeHTTP _ BufferingRecorder h next empty_world = Some (h', None, s') /\
    Stream h = true /\
    statuses_of (calls s') = [] /\
    body_of (calls s') = [] /\
    sent_headers s' !! "Content-Length" = Some ["0"].
Proof. do 2 eexists. repeat split; vm_compute; reflexivity. Qed.

(** C10, on the same upstream as the witness of C3: one [WriteHeader]
    reaches the underlying writer, with status 200. *)
Lemma stream_WriteHeader_at_most_once_witness :
  let h := (Provision (config [literal_rule "foobar" "X"] true)).1 in
  let next := mkNext [DoHeaderSet "Content-Length" "6";
                      DoWrite (list_byte_of_string "fo"); DoWriteHeader 404;
                      DoWrite (list_byte_of_string "obar")] None in
  statuses_of (calls (@ServeHTTP_pool _ BufferingRecorder h [] next empty_world).2)
  = [200].
Proof.
  intros h next.
  exact (proj1 (@stream_WriteHeader_at_most_once _ BufferingRecorder
                  h [] next empty_world eq_refl)).
Defined.

(** C9, on a pool whose idle transformer holds the Pending Buffer "fo" left
    by an earlier request: the next request does not see it. *)
Lemma pooled_transformer_starts_empty_witness :
  let h := (Provision (config [literal_rule "foobar" "X"] true)).1 in
  let stale : @Transformer ExampleLib :=
    [mkStage (Literal (list_byte_of_string "foobar"))
       (list_byte_of_string "X") (list_byte_of_string "fo")] in
  let next := mkNext [DoWrite (list_byte_of_string "obar")] None in
  body_of (calls (@ServeHTTP_pool _ BufferingRecorder h [stale] next empty_world).2)
  = list_byte_of_string "obar" /\
  (@ServeHTTP_pool _ BufferingRecorder h [stale] next empty_world).2
  = (@ServeHTTP_pool _ BufferingRecorder h [] next empty_world).2.
Proof.
  intros h stale next.
  destruct (@pooled_transformer_starts_empty StubRegexp BufferingRecorder
              h [stale] next empty_world)
    as (_ & _ & Hworld & _).
  - repeat constructor.
  - split; [|exact Hworld].
    exact (f_equal (fun w => body_of (calls w)) Hworld).
Defined.

End ServeExamples.

(** * Further properties of the code *)

(** ** [Provision]: what it changes and what its errors name *)

Section ProvisionExtras.
Context `{TL : TransformLib}.

Lemma provisioned_refl (r : Replacement) : provisioned r r.
Proof. repeat split. now left. Qed.

Lemma prepare_provisioned (repls : list Replacement) : forall i,
  Forall2 provisioned repls (prepare i repls).1.
Proof.
  induction repls as [|repl rest IH]; intros i; [constructor|].
  assert (Hsame : Forall2 provisioned (repl :: rest) (repl :: rest)).
  { apply Forall_Forall2_diag, Forall_forall. intros; apply provisioned_refl. }
  cbn [prepare].
  destruct (String.eqb (Search repl) "" && String.eqb (SearchRegexp repl) "");
    [exact Hsame|].
  destruct (negb (String.eqb (Search repl) "")
            && negb (String.eqb (SearchRegexp repl) "")); [exact Hsame|].
  destruct (String.eqb (SearchRegexp repl) "") eqn:Ere; cbn [negb].
  - specialize (IH (S i)). destruct (prepare (S i) rest) as [rest' e].
    constructor; [apply provisioned_refl | exact IH].
  - destruct (regexp_Compile (SearchRegexp repl)) as [err|c] eqn:Ec; [exact Hsame|].
    specialize (IH (S i)). destruct (prepare (S i) rest) as [rest' e].
    constructor; [|exact IH].
    repeat split. right. split; [now apply String.eqb_neq | eauto].
Qed.

Lemma prepare_compiled (repls : list Replacement) : forall i,
  (prepare i repls).2 = None -> Forall compiled (prepare i repls).1.
Proof.
  induction repls as [|repl rest IH]; intros i; [constructor|].
  cbn [prepare].
  destruct (String.eqb (Search repl) "" && String.eqb (SearchRegexp repl) "");
    [discriminate|].
  destruct (negb (String.eqb (Search repl) "")
            && negb (String.eqb (SearchRegexp repl) "")); [discriminate|].
  destruct (String.eqb (SearchRegexp repl) "") eqn:Ere; cbn [negb].
  - specialize (IH (S i)). destruct (prepare (S i) rest) as [rest' e].
    cbn [fst snd] in *. intros ->. constructor; [|now apply IH].
    intros Hne. apply String.eqb_eq in Ere. contradiction.
  - destruct (regexp_Compile (SearchRegexp repl)) as [err|c] eqn:Ec; [discriminate|].
    specialize (IH (S i)). destruct (prepare (S i) rest) as [rest' e].
    cbn [fst snd] in *. intros ->. constructor; [|now apply IH].
    intros _. exists c. now split.
Qed.

Lemma Provision_success (h : Handler) :
  (Provision h).2 = None ->
  transformerPool (Provision h).1 = Some [] /\
  Stream (Provision h).1 = Stream h.
Proof.
  unfold Provision.
  destruct (Nat.eqb (length (Replacements h)) 0); [discriminate|].
  destruct (prepare 0 (Replacements h)) as [repls [e|]]; [discriminate|].
  now split.
Qed.

(** X1.  [Provision] keeps the streaming flag and, rule by rule, the search,
    search_regexp and replace strings; all it may change in a rule is to set
    the compiled form of its regexp.  When it returns no error the pool is
    new and empty and every regexp rule carries its compiled regexp. *)
Theorem Provision_only_compiles (h : Handler) :
  Stream (Provision h).1 = Stream h /\
  Forall2 provisioned (Replacements h) (Replacements (Provision h).1) /\
  ((Provision h).2 = None ->
     transformerPool (Provision h).1 = Some [] /\
     Forall compiled (Replacements (Provision h).1)).
Proof.
  unfold Provision.
  destruct (Nat.eqb (length (Replacements h)) 0).
  - cbn [fst snd]. repeat split; [|discriminate|discriminate].
    apply Forall_Forall2_diag, Forall_forall. intros; apply provisioned_refl.
  - pose proof (prepare_provisioned (Replacements h) 0) as Hp.
    pose proof (prepare_compiled (Replacements h) 0) as Hc.
    destruct (prepare 0 (Replacements h)) as [repls [e|]]; cbn [fst snd] in *.
    + repeat split; [exact Hp|discriminate|discriminate].
    + repeat split; [exact Hp|]. now apply Hc.
Qed.

Lemma prepare_transformers (repls : list Replacement) : forall i,
  Forall (fun r => re r = None) repls ->
  (prepare i repls).2 = None ->
  map new_transform (prepare i repls).1 = map transformer_of repls.
Proof.
  induction repls as [|repl rest IH]; intros i Hnil; [reflexivity|].
  inversion Hnil as [|? ? Hr Hrest]; subst.
  cbn [prepare].
  destruct (String.eqb (Search repl) "" && String.eqb (SearchRegexp repl) "");
    [discriminate|].
  destruct (negb (String.eqb (Search repl) "")
            && negb (String.eqb (SearchRegexp repl) "")); [discriminate|].
  destruct (String.eqb (SearchRegexp repl) "") eqn:Ere; cbn [negb].
  - specialize (IH (S i) Hrest). destruct (prepare (S i) rest) as [rest' e].
    cbn [fst snd map] in *. intros ->. rewrite (IH eq_refl). f_equal.
    unfold transformer_of, new_transform. now rewrite Ere, Hr.
  - destruct (regexp_Compile (SearchRegexp repl)) as [err|c] eqn:Ec; [discriminate|].
    specialize (IH (S i) Hrest). destruct (prepare (S i) rest) as [rest' e].
    cbn [fst snd map] in *. intros ->. rewrite (IH eq_refl). f_equal.
    unfold transformer_of. now rewrite Ere, Ec.
Qed.

(** X2.  When [Provision] accepts a configuration whose rules come without
    a compiled regexp (as the JSON and Caddyfile loaders produce them), the
    [New] function of the pool chains one transformer per rule, in the order
    of the rules: a regexp transformer over the compiled search_regexp for a
    regexp rule, a literal transformer over search for the others. *)
Theorem pool_New_after_Provision (h : Handler) :
  Forall (fun r => re r = None) (Replacements h) ->
  (Provision h).2 = None ->
  pool_New (Provision h).1 = transform_Chain (map transformer_of (Replacements h)).
Proof.
  intros Hnil Hok. unfold pool_New. f_equal.
  unfold Provision in *.
  destruct (Nat.eqb (length (Replacements h)) 0); [discriminate Hok|].
  pose proof (prepare_transformers (Replacements h) 0 Hnil) as Ht.
  destruct (prepare 0 (Replacements h)) as [repls [e|]]; [discriminate Hok|].
  cbn [fst snd Replacements] in *. now apply Ht.
Qed.

(** Digits and the index an error names. *)
Lemma all_digits_uint (d : Decimal.uint) :
  all_digits (NilEmpty.string_of_uint d) = true.
Proof. induction d; cbn; auto. Qed.

Lemma all_digits_itoa (n : nat) : all_digits (itoa n) = true.
Proof.
  unfold itoa, NilZero.string_of_uint.
  destruct (Nat.to_uint n) eqn:E; try reflexivity;
    rewrite <- E; try apply all_digits_uint;
    change (all_digits (NilEmpty.string_of_uint (Nat.to_uint n)) = true);
    apply all_digits_uint.
Qed.

Lemma prefix_append_cancel (a x y : string) :
  String.prefix (a +:+ x) (a +:+ y) = String.prefix x y.
Proof.
  induction a as [|c a IH]; [reflexivity|].
  change (String.prefix (String c (a +:+ x)) (String c (a +:+ y)) = String.prefix x y).
  cbn [String.prefix]. now destruct (ascii_dec c c).
Qed.

Lemma digits_before_colon (a : string) : forall b u v : string,
  all_digits a = true -> all_digits b = true ->
  String.prefix (a +:+ String ":" u) (b +:+ String ":" v) = true -> a = b.
Proof.
  induction a as [|x a IH]; intros [|y b] u v Ha Hb Hp; [reflexivity| | |].
  - change (String.prefix (String ":" u) (String y (b +:+ String ":" v)) = true) in Hp.
    cbn [String.prefix] in Hp. destruct (ascii_dec ":" y) as [<-|]; [|discriminate].
    cbn in Hb. discriminate.
  - change (String.prefix (String x (a +:+ String ":" u)) (String ":" v) = true) in Hp.
    cbn [String.prefix] in Hp. destruct (ascii_dec x ":") as [->|]; [|discriminate].
    cbn in Ha. discriminate.
  - change (String.prefix (String x (a +:+ String ":" u))
              (String y (b +:+ String ":" v)) = true) in Hp.
    cbn [String.prefix] in Hp. destruct (ascii_dec x y) as [->|]; [|discriminate].
    cbn [all_digits] in Ha, Hb.
    apply andb_true_iff in Ha as [_ Ha]. apply andb_true_iff in Hb as [_ Hb].
    f_equal. now apply (IH b u v).
Qed.

Lemma names_rule_iff (i j : nat) (t : string) :
  names_rule ("replacement " +:+ itoa i +:+ ": " +:+ t) j = true <-> j = i.
Proof.
  split; [|intros ->; apply names_rule_prefix].
  unfold names_rule. rewrite prefix_append_cancel. intros Hp.
  apply itoa_inj.
  exact (digits_before_colon (itoa j) (itoa i) " " (" " +:+ t)
           (all_digits_itoa j) (all_digits_itoa i) Hp).
Qed.

Lemma prepare_rule_bad_shape i repl rest :
  rule_ok repl = false ->
  exists t, (prepare i (repl :: rest)).2
            = Some ("replacement " +:+ itoa i +:+ ": " +:+ t).
Proof.
  unfold rule_ok, well_formed, compiles. intros Hbad. cbn [prepare].
  destruct (String.eqb (Search repl) ""), (String.eqb (SearchRegexp repl) "");
    cbn in *; try discriminate; try (eexists; reflexivity).
  destruct (regexp_Compile (SearchRegexp repl)); [|discriminate].
  eexists; reflexivity.
Qed.

(** X3.  The error [Provision] returns for the first rule it rejects names
    that rule's index and no other index. *)
Theorem Provision_error_names_exactly_one_rule (h : Handler) (i : nat)
    (repl : Replacement) :
  Replacements h !! i = Some repl ->
  forallb rule_ok (take i (Replacements h)) = true ->
  rule_ok repl = false ->
  exists e, (Provision h).2 = Some e /\
            forall j, names_rule e j = true <-> j = i.
Proof.
  intros Hi Hpre Hbad.
  rewrite (Provision_at_first_offender h i repl Hi Hpre).
  destruct (prepare_rule_bad_shape i repl (drop (S i) (Replacements h)) Hbad)
    as [t Ht].
  rewrite Ht. eexists. split; [reflexivity|].
  intros j. apply names_rule_iff.
Qed.

End ProvisionExtras.

(** ** [ServeHTTP]: the paths the other statements leave out *)

Section ServeExtras.
Context `{TL : TransformLib} `{RL : RecorderLib}.

(** X4.  In buffered mode, when the upstream handler returns an error,
    [ServeHTTP] returns that error and leaves the world as the upstream left
    it: the collected body is dropped, no transform pass is made and nothing
    is written; the transformer goes back to the pool as reset. *)
Theorem ServeHTTP_buffered_upstream_error (h : Handler)
    (pool : list Transformer) (next : Next) (s : World) (e : error) :
  Stream h = false ->
  next_err next = Some e ->
  ServeHTTP_pool h pool next s =
  ((pool_Put (pool_Get h pool).2 (acquired h pool), Some e),
   (upstream_recorded next s).2).
Proof.
  intros Hs He. unfold ServeHTTP_pool, acquired, upstream_recorded.
  destruct (pool_Get h pool) as [tr idle]. cbn [fst snd].
  rewrite Hs, He. run_world.
  now destruct (next_ServeHTTP (next_actions next) NewResponseRecorder _).
Qed.

Lemma Header_Set_other (hdr : Header) (key value k : string) :
  k <> key -> Header_Set hdr key value !! k = hdr !! k.
Proof. intros Hne. unfold Header_Set. now apply lookup_insert_ne. Qed.

Lemma Header_Del_other (hdr : Header) (key k : string) :
  k <> key -> Header_Del hdr key !! k = hdr !! k.
Proof. intros Hne. unfold Header_Del. now apply lookup_delete_ne. Qed.

(** X5.  In buffered mode, when the transform succeeds, [ServeHTTP] hands
    the whole transformed body to the underlying writer (an empty one too),
    calls [WriteHeader] with the recorded status exactly when that status is
    positive, changes no header other than Content-Length, and leaves a
    Content-Length that is absent or empty as it is. *)
Theorem ServeHTTP_buffered_writes_result (h : Handler)
    (pool : list Transformer) (next : Next) (s s1 s2 : World)
    (rec : ResponseRecorder) (t : Transformer) (result : list byte) :
  Stream h = false ->
  next_err next = None ->
  upstream_recorded next s = (rec, s1) ->
  Buffered rec = true ->
  transform_Bytes (acquired h pool) (Buffer_Bytes rec) s1 = ((t, result, None), s2) ->
  let s' := (ServeHTTP_pool h pool next s).2 in
  body_of (calls s') = body_of (calls s1) ++ result /\
  statuses_of (calls s') =
    statuses_of (calls s1) ++ (if 0 <? Status rec then [Status rec] else []) /\
  (forall k, k <> "Content-Length" -> header s' !! k = header s1 !! k) /\
  (Header_Get (header s1) "Content-Length" = "" -> header s' = header s1).
Proof.
  intros Hs He Hrec Hbuf Htr s'. subst s'.
  rewrite ServeHTTP_pool_buffered by assumption. rewrite Hrec. cbn [fst snd].
  rewrite (serve_buffered_ok _ _ _ _ _ _ Hbuf Htr). cbn [fst snd header calls].
  rewrite transform_Bytes_run in Htr. inversion Htr; subst. cbn [header calls].
  rewrite !body_of_app, !statuses_of_app. cbn [body_of statuses_of].
  rewrite !app_nil_r. repeat split.
  - destruct (0 <? Status rec); cbn [body_of app]; now rewrite ?app_nil_r.
  - now destruct (0 <? Status rec).
  - intros k Hk. unfold corrected_header.
    destruct (negb _); [now apply Header_Set_other | reflexivity].
  - intros Hcl. unfold corrected_header. now rewrite Hcl.
Qed.

(** The header map and the transformer passes of a streaming run. *)
Lemma stream_step_header (a : Action) (fw : replaceWriter) (s : World) :
  header (stream_step a fw s).2 =
  match a with
  | DoHeaderSet k v => Header_Set (header s) k v
  | DoHeaderDel k => Header_Del (header s) k
  | _ => if wroteHeader fw then header s
         else Header_Del (header s) "Content-Length"
  end.
Proof.
  destruct a as [k v|k|st|d]; cbn [stream_step snd header]; try reflexivity.
  - destruct (wroteHeader fw) eqn:E.
    + now rewrite fw_WriteHeader_ignored.
    + now rewrite fw_WriteHeader_first.
  - destruct (wroteHeader fw) eqn:E.
    + now rewrite fw_Write_after_header.
    + now rewrite fw_Write_first.
Qed.

Lemma stream_header_after (acts : list Action) : forall fw s,
  wroteHeader fw = true ->
  header (next_ServeHTTP acts fw s).2 = apply_header_edits acts (header s).
Proof.
  induction acts as [|a acts IH]; intros fw s Hw; [reflexivity|].
  rewrite next_ServeHTTP_cons, IH
    by (rewrite stream_step_wroteHeader, Hw; reflexivity).
  rewrite stream_step_header, Hw. now destruct a.
Qed.

Lemma stream_header_before (acts : list Action) : forall fw s,
  wroteHeader fw = false ->
  header (next_ServeHTTP acts fw s).2 =
  match after_first_write acts with
  | None => apply_header_edits acts (header s)
  | Some post =>
      apply_header_edits post
        (Header_Del (apply_header_edits (until_first_write acts) (header s))
           "Content-Length")
  end.
Proof.
  induction acts as [|a acts IH]; intros fw s Hw; [reflexivity|].
  rewrite next_ServeHTTP_cons.
  pose proof (stream_step_wroteHeader a fw s) as Hw'.
  pose proof (stream_step_header a fw s) as Hh.
  rewrite Hw in Hw', Hh. cbn [orb] in Hw'.
  destruct a as [k v|k|st|d];
    cbn [after_first_write until_first_write is_write_action apply_header_edits]
      in *.
  - rewrite IH by assumption. now rewrite Hh.
  - rewrite IH by assumption. now rewrite Hh.
  - rewrite stream_header_after by assumption. now rewrite Hh.
  - rewrite stream_header_after by assumption. now rewrite Hh.
Qed.

(** X6.  In streaming mode the header map [ServeHTTP] leaves is the map the
    upstream's own header edits produce, with one deletion of
    Content-Length at the upstream's first [WriteHeader] or [Write]: edits
    made after that call stay (a Content-Length set late included), and
    without such a call the handler changes no header. *)
Theorem stream_header_map (h : Handler) (pool : list Transformer)
    (next : Next) (s : World) :
  Stream h = true ->
  header (ServeHTTP_pool h pool next s).2 =
  match after_first_write (next_actions next) with
  | None => apply_header_edits (next_actions next) (header s)
  | Some post =>
      apply_header_edits post
        (Header_Del
           (apply_header_edits (until_first_write (next_actions next)) (header s))
           "Content-Length")
  end.
Proof.
  intros Hs. rewrite ServeHTTP_pool_stream by assumption. cbv zeta.
  cbn [snd header]. now rewrite stream_header_before.
Qed.

Lemma transforms_of_app (cs cs' : list Call) :
  transforms_of (cs ++ cs') = transforms_of cs ++ transforms_of cs'.
Proof. induction cs as [|[] cs IH]; cbn; congruence. Qed.

Lemma stream_step_transforms (a : Action) (fw : replaceWriter) (s : World) :
  transforms_of (calls (stream_step a fw s).2) =
  transforms_of (calls s) ++
  match a with
  | DoWrite d => [(d, false)]
  | _ => []
  end.
Proof.
  destruct a as [k v|k|st|d]; cbn [stream_step snd calls];
    rewrite ?app_nil_r; try reflexivity.
  - destruct (wroteHeader fw) eqn:E.
    + now rewrite fw_WriteHeader_ignored.
    + rewrite fw_WriteHeader_first by assumption. cbn [snd calls].
      rewrite transforms_of_app. cbn. now rewrite app_nil_r.
  - destruct (wroteHeader fw) eqn:E.
    + rewrite fw_Write_after_header by assumption. cbn [snd calls].
      now rewrite transforms_of_app.
    + rewrite fw_Write_first by assumption. cbn [snd calls].
      now rewrite transforms_of_app.
Qed.

Lemma stream_transforms (acts : list Action) : forall fw s,
  transforms_of (calls (next_ServeHTTP acts fw s).2) =
  transforms_of (calls s) ++ map (fun d => (d, false)) (writes_of acts).
Proof.
  induction acts as [|a acts IH]; intros fw s.
  - cbn. now rewrite app_nil_r.
  - rewrite next_ServeHTTP_cons, IH, stream_step_transforms, <- app_assoc.
    now destruct a.
Qed.

(** X7.  In streaming mode every chunk the upstream writes is passed to the
    transformer once, unchanged and in order, as a pass that is not at end of
    input, and one empty pass at end of input follows when the upstream has
    returned, whether it failed or not; [ServeHTTP] returns the upstream's
    error as it is (an error of the closing pass is dropped). *)
Theorem stream_passes_every_chunk (h : Handler) (pool : list Transformer)
    (next : Next) (s : World) :
  Stream h = true ->
  transforms_of (calls (ServeHTTP_pool h pool next s).2) =
    transforms_of (calls s)
    ++ map (fun d => (d, false)) (writes_of (next_actions next))
    ++ [([], true)] /\
  (ServeHTTP_pool h pool next s).1.2 = next_err next.
Proof.
  intros Hs. rewrite ServeHTTP_pool_stream by assumption. cbv zeta.
  cbn [fst snd calls]. split; [|reflexivity].
  rewrite transforms_of_app, stream_transforms. cbn [calls].
  rewrite transforms_of_app. cbn. now rewrite app_nil_r, <- app_assoc.
Qed.

End ServeExtras.

(** ** Requests in sequence, whatever [sync.Pool] does *)

Section PoolExtras.
Context `{RX : RegexpLib} `{RL : RecorderLib}.

Lemma pool_of_submseteq (h : @Handler SpecEngine) (pool kept : list Transformer) :
  kept ⊆+ pool -> pool_of h pool -> pool_of h kept.
Proof.
  unfold pool_of. rewrite !Forall_forall. intros Hsub Hp t Ht.
  apply Hp. eapply elem_of_submseteq; eassumption.
Qed.

Lemma pool_Get_any_of (h : @Handler SpecEngine) (kept idle : list Transformer)
    (tr : Transformer) :
  pool_of h kept -> pool_Get_any h kept tr idle -> pool_of h (tr :: idle).
Proof.
  intros Hp [t idle' Hperm|].
  - apply (pool_of_submseteq h kept); [|exact Hp].
    apply Permutation_submseteq. now symmetry.
  - constructor; [apply pool_New_Reset | exact Hp].
Qed.

(** [pool_Get] is one of the choices [pool_Get_any] allows. *)
Lemma pool_Get_allowed (h : @Handler SpecEngine) (pool : list Transformer) :
  pool_Get_any h pool (pool_Get h pool).1 (pool_Get h pool).2.
Proof.
  destruct pool as [|t rest]; cbn [pool_Get fst snd].
  - apply Get_New.
  - now apply Get_idle.
Qed.

(** One request on a pool of instances of the chain: the response and the
    error are those of a fresh transformer, and what goes back is a pool of
    instances of the chain. *)
Lemma ServeHTTP_pool_of (h : @Handler SpecEngine) (pool : list Transformer)
    (next : Next) (s : World) :
  pool_of h pool ->
  (ServeHTTP_pool h pool next s).2 = (ServeHTTP_pool h [] next s).2 /\
  (ServeHTTP_pool h pool next s).1.2 = (ServeHTTP_pool h [] next s).1.2 /\
  pool_of h (ServeHTTP_pool h pool next s).1.1.
Proof.
  intros Hpool.
  pose proof (acquired_is_New h pool Hpool) as Hacq.
  assert (Hsame : acquired h pool = acquired h [])
    by (rewrite Hacq; symmetry; apply acquired_is_New; constructor).
  destruct (ServeHTTP_pool_same_acquired h pool [] next s Hsame) as [Hworld Herr].
  split; [exact Hworld|]. split; [exact Herr|].
  destruct (ServeHTTP_pool_returns h pool next s) as (t & Ht & Hp & Hr).
  rewrite Ht. constructor.
  - cbn [Reset SpecEngine]. rewrite Hr, Hacq. apply pool_New_Reset.
  - unfold pool_Get. destruct pool as [|t0 rest]; cbn [snd]; [constructor|].
    now inversion Hpool.
Qed.

(** [ServeHTTP] reads the rules and the streaming flag of the handler, not
    its pool field. *)
Lemma ServeHTTP_pool_handler (h : @Handler SpecEngine) (p : option (list Transformer))
    (pool : list Transformer) (next : Next) (s : World) :
  ServeHTTP_pool (mkHandler (Replacements h) (Stream h) p) pool next s
  = ServeHTTP_pool h pool next s.
Proof. reflexivity. Qed.

Lemma serve_fresh_handler (nexts : list Next) : forall (h : @Handler SpecEngine)
    (p : option (list Transformer)) (s : World),
  serve_fresh (mkHandler (Replacements h) (Stream h) p) nexts s
  = serve_fresh h nexts s.
Proof.
  induction nexts as [|next rest IH]; intros h p s; [reflexivity|].
  cbn [serve_fresh]. cbv zeta.
  rewrite ServeHTTP_pool_handler.
  rewrite <- (IH h p). reflexivity.
Qed.

Lemma serves_fresh (nexts : list Next) : forall (h h' : @Handler SpecEngine)
    (pool : list Transformer) (s s' : World) (errs : list (option error)),
  transformerPool h = Some pool -> pool_of h pool ->
  serves h nexts s h' errs s' ->
  (errs, s') = serve_fresh h nexts s /\
  Replacements h' = Replacements h /\
  Stream h' = Stream h /\
  exists pool', transformerPool h' = Some pool' /\ pool_of h' pool'.
Proof.
  induction nexts as [|next rest IH]; intros h h' pool s s' errs Hp Hof Hrun.
  - inversion Hrun; subst. repeat split. now exists pool.
  - inversion Hrun as [|? pool0 kept idle pool1 tr ? ? ? ? errs0 ? Hp0 Hkept Hget Hput Hrest];
      subst.
    rewrite Hp in Hp0. injection Hp0 as <-.
    assert (Hdrawn : pool_of h (tr :: idle)).
    { apply (pool_Get_any_of h kept); [|exact Hget].
      now apply (pool_of_submseteq h pool). }
    destruct (ServeHTTP_pool_of h (tr :: idle) next s Hdrawn) as (Hw & He & Hback).
    destruct (IH (mkHandler (Replacements h) (Stream h) (Some pool1)) h' pool1 _ s' errs0
                eq_refl (pool_of_submseteq h _ pool1 Hput Hback) Hrest)
      as (Hfresh & Hr & Hs & Hpool').
    cbn [Replacements Stream] in Hr, Hs.
    split; [|now repeat split].
    rewrite serve_fresh_handler, Hw in Hfresh.
    cbn [serve_fresh]. cbv zeta. now rewrite <- Hfresh, He.
Qed.

Lemma serves_exists (nexts : list Next) : forall (h : @Handler SpecEngine)
    (pool : list Transformer) (s : World),
  transformerPool h = Some pool ->
  exists h' errs s', serves h nexts s h' errs s'.
Proof.
  induction nexts as [|next rest IH]; intros h pool s Hp.
  - exists h, [], s. constructor.
  - destruct (IH (mkHandler (Replacements h) (Stream h)
                    (Some (ServeHTTP_pool h (pool_New h :: pool) next s).1.1))
                _ (ServeHTTP_pool h (pool_New h :: pool) next s).2 eq_refl)
      as (h' & errs & s' & Hrun).
    exists h', ((ServeHTTP_pool h (pool_New h :: pool) next s).1.2 :: errs), s'.
    eapply (serves_cons h pool pool pool); try eassumption; try reflexivity.
    apply Get_New.
Qed.

(** X9.  A handler that [Provision] accepted serves any sequence of
    requests, one after the other, without the nil-pool panic, whichever
    idle transformer [sync.Pool] hands out and whatever it drops: every
    response and every error returned are those of a transformer fresh from
    [New], the rules and the streaming flag stay as provisioned, and the
    pool stays a pool of instances of the handler's chain. *)
Theorem provisioned_handler_serves (h : @Handler SpecEngine) (nexts : list Next)
    (s : World) :
  (Provision h).2 = None ->
  (exists h' errs s', serves (Provision h).1 nexts s h' errs s') /\
  forall h' errs s',
    serves (Provision h).1 nexts s h' errs s' ->
    (errs, s') = serve_fresh (Provision h).1 nexts s /\
    Replacements h' = Replacements (Provision h).1 /\
    Stream h' = Stream h /\
    exists pool, transformerPool h' = Some pool /\ pool_of h' pool.
Proof.
  intros Hok. destruct (Provision_success h Hok) as [Hp Hst]. split.
  - now apply (serves_exists nexts _ []).
  - intros h' errs s' Hrun. rewrite <- Hst.
    apply (serves_fresh nexts _ h' [] s s' errs Hp); [constructor | exact Hrun].
Qed.

End PoolExtras.

(** ** [UnmarshalCaddyfile] *)

Section CaddyfileExtras.
Context `{TL : TransformLib} `{DL : DispenserLib}.

Lemma extends_refl (h : Handler) : extends h h.
Proof.
  split; [reflexivity|]. split; [auto|].
  exists []. now rewrite app_nil_r.
Qed.

Lemma extends_trans (h1 h2 h3 : Handler) :
  extends h1 h2 -> extends h2 h3 -> extends h1 h3.
Proof.
  intros (Hp1 & Hs1 & a1 & Hr1 & Hf1) (Hp2 & Hs2 & a2 & Hr2 & Hf2).
  split; [congruence|]. split; [auto|].
  exists (a1 ++ a2). split.
  - now rewrite Hr2, Hr1, app_assoc.
  - now apply Forall_app.
Qed.

Lemma extends_append (h : Handler) (repl : Replacement) :
  single_pattern repl -> extends h (append_replacement h repl).
Proof.
  intros Hr. split; [reflexivity|]. split; [auto|].
  exists [repl]. split; [reflexivity | now constructor].
Qed.

Lemma line_extends (h : Handler) (d : Dispenser) : extends h (line h d).1.1.
Proof.
  unfold line.
  destruct (String.eqb (d_Val d) "stream").
  - destruct (Stream h) eqn:Es; [apply extends_refl|].
    destruct (d_NextArg d) as [more d1].
    assert (Hx : extends h (mkHandler (Replacements h) true (transformerPool h))).
    { split; [reflexivity|]. split; [reflexivity|].
      exists []. now rewrite app_nil_r. }
    now destruct more.
  - destruct (String.eqb (d_Val d) "re").
    + destruct (d_AllArgs2 d "" "") as [[[ok sr] rp] d1].
      destruct ok; cbn [negb fst]; [|apply extends_refl].
      apply extends_append. split; [now left | reflexivity].
    + destruct (d_NextArg d) as [ok d1].
      destruct ok; cbn [negb fst]; [|apply extends_refl].
      destruct (d_NextArg d1) as [more d2].
      destruct more; cbn [fst]; [apply extends_refl|].
      apply extends_append. split; [now right | reflexivity].
Qed.

Lemma block_loop_extends (fuel : nat) : forall nesting h d,
  extends h (block_loop fuel nesting h d).1.1.
Proof.
  induction fuel as [|n IH]; intros nesting h d; [apply extends_refl|].
  cbn [block_loop]. destruct (d_NextBlock d nesting) as [more d1].
  destruct more; [|apply extends_refl].
  pose proof (line_extends h d1) as Hl.
  destruct (line h d1) as [[h1 d2] [err|]]; cbn [fst] in *; [exact Hl|].
  eapply extends_trans; [exact Hl | apply IH].
Qed.

Lemma UnmarshalCaddyfile_extends (fuel : nat) : forall h d,
  extends h (UnmarshalCaddyfile fuel h d).1.1.
Proof.
  induction fuel as [|n IH]; intros h d; [apply extends_refl|].
  cbn [UnmarshalCaddyfile]. destruct (d_Next d) as [more d1].
  destruct more; cbn [negb]; [|apply extends_refl].
  destruct (d_NextArg d1) as [arg d2].
  assert (Hl : extends h (if arg then line h d2 else (h, d2, None)).1.1).
  { destruct arg; [apply line_extends | apply extends_refl]. }
  destruct (if arg then line h d2 else (h, d2, None)) as [[h1 d3] [err|]];
    cbn [fst] in *; [exact Hl|].
  pose proof (block_loop_extends n (d_Nesting d3) h1 d3) as Hb.
  destruct (block_loop n (d_Nesting d3) h1 d3) as [[h2 d4] [e| |]];
    cbn [fst] in *; try (eapply extends_trans; eassumption).
  eapply extends_trans; [exact Hl|]. eapply extends_trans; [exact Hb | apply IH].
Qed.

(** X10.  Whatever the dispenser holds and wherever it stops,
    [UnmarshalCaddyfile] only adds to the handler: the rules already there
    stay first and unchanged, every rule it appends has at most one of
    search and search_regexp set and no compiled regexp, streaming is never
    switched off, and the transformer pool is not touched. *)
Theorem UnmarshalCaddyfile_only_appends (fuel : nat) (h : Handler) (d : Dispenser) :
  let h' := (UnmarshalCaddyfile fuel h d).1.1 in
  transformerPool h' = transformerPool h /\
  (Stream h = true -> Stream h' = true) /\
  exists added,
    Replacements h' = Replacements h ++ added /\ Forall single_pattern added.
Proof. exact (UnmarshalCaddyfile_extends fuel h d). Qed.

(** On rules with at most one pattern the loop of [Provision] fails only
    at a rule without literal search: one without any pattern, or one whose
    regexp does not compile. *)
Lemma prepare_single_pattern_errors (repls : list Replacement) : forall i e,
  Forall single_pattern repls ->
  (prepare i repls).2 = Some e ->
  exists j repl,
    repls !! j = Some repl /\ Search repl = "" /\
    ((SearchRegexp repl = "" /\ e = err_no_search (i + j)) \/
     (SearchRegexp repl <> "" /\
      exists err, regexp_Compile (SearchRegexp repl) = inl err /\
                  e = err_regexp (i + j) err)).
Proof.
  induction repls as [|repl rest IH]; intros i e Hsp; [discriminate|].
  inversion Hsp as [|? ? [Hone _] Hrest]; subst. cbn [prepare].
  destruct (String.eqb (Search repl) "") eqn:E1,
           (String.eqb (SearchRegexp repl) "") eqn:E2; cbn [andb negb].
  - apply String.eqb_eq in E1, E2. intros [= <-].
    exists 0%nat, repl. rewrite Nat.add_0_r. split; [reflexivity|]. split; [exact E1|].
    left. now split.
  - apply String.eqb_eq in E1. apply String.eqb_neq in E2.
    destruct (regexp_Compile (SearchRegexp repl)) as [err|c] eqn:Ec.
    + intros [= <-]. exists 0%nat, repl. rewrite Nat.add_0_r.
      split; [reflexivity|]. split; [exact E1|]. right. split; [exact E2|].
      now exists err.
    + specialize (IH (S i) e Hrest). destruct (prepare (S i) rest) as [rest' e'].
      cbn [snd] in *. intros He. destruct (IH He) as (j & r & Hl & Hs & Hcase).
      exists (S j), r. rewrite Nat.add_succ_r. now repeat split.
  - specialize (IH (S i) e Hrest). destruct (prepare (S i) rest) as [rest' e'].
    cbn [snd] in *. intros He. destruct (IH He) as (j & r & Hl & Hs & Hcase).
    exists (S j), r. rewrite Nat.add_succ_r. now repeat split.
  - apply String.eqb_neq in E1, E2. destruct Hone; contradiction.
Qed.

(** X11.  A handler built by [parseCaddyfile] has no rule with both search
    and search_regexp set, whatever the directive, so the check of
    [Provision] for a rule with both patterns holds at no rule of it.  When
    [Provision] rejects the handler, it is for one of three reasons: the
    rule list is empty; or a rule [i] has no pattern at all and the error is
    the one of a rule without search; or a rule [i] has a search_regexp, no
    literal search, and the error carries what [regexp.Compile] returned
    for that search_regexp. *)
Theorem parsed_handler_never_sets_both (fuel : nat) (d : Dispenser) :
  let h := (parseCaddyfile fuel d).1.1 in
  Forall single_pattern (Replacements h) /\
  transformerPool h = None /\
  (forall i repl, Replacements h !! i = Some repl ->
     negb (String.eqb (Search repl) "") && negb (String.eqb (SearchRegexp repl) "")
     = false) /\
  forall e, (Provision h).2 = Some e ->
    (Replacements h = [] /\ e = "no replacements configured") \/
    exists i repl,
      Replacements h !! i = Some repl /\ Search repl = "" /\
      ((SearchRegexp repl = "" /\ e = err_no_search i) \/
       (SearchRegexp repl <> "" /\
        exists err, regexp_Compile (SearchRegexp repl) = inl err /\
                    e = err_regexp i err)).
Proof.
  cbv zeta. unfold parseCaddyfile.
  destruct (UnmarshalCaddyfile_extends fuel (mkHandler [] false None) d)
    as (Hp & _ & added & Hr & Hf).
  cbn [Replacements transformerPool app] in *.
  split; [now rewrite Hr|]. split; [exact Hp|]. split.
  - intros i repl Hl. rewrite Hr in Hl.
    destruct (proj1 (Forall_lookup _ _) Hf i repl Hl) as [[-> | ->] _];
      [reflexivity | apply andb_false_r].
  - intros e. rewrite Provision_error.
    destruct (Nat.eqb _ 0) eqn:En.
    + intros [= <-]. left. split; [|reflexivity].
      apply Nat.eqb_eq in En. now apply length_zero_iff_nil.
    + intros He. right. rewrite Hr in He |- *.
      exact (prepare_single_pattern_errors added 0 e Hf He).
Qed.

(** Termination on a dispenser whose cursor only moves forward. *)
Section Forward.
Variable m : Dispenser -> nat.
Hypothesis m_forward : forward_only m.

Lemma line_forward (h : Handler) (d : Dispenser) :
  (m (line h d).1.2 <= m d)%nat.
Proof.
  destruct m_forward as (_ & Harg & Hall & _).
  unfold line.
  destruct (String.eqb (d_Val d) "stream").
  - destruct (Stream h); [cbn; lia|].
    pose proof (Harg d). destruct (d_NextArg d) as [more d1].
    now destruct more.
  - destruct (String.eqb (d_Val d) "re").
    + pose proof (Hall d "" "") as H.
      destruct (d_AllArgs2 d "" "") as [[[ok sr] rp] d1].
      now destruct ok.
    + pose proof (Harg d) as H1. destruct (d_NextArg d) as [ok d1].
      destruct ok; cbn [negb fst snd] in *; [|exact H1].
      pose proof (Harg d1) as H2. destruct (d_NextArg d1) as [more d2].
      cbn [snd] in *. destruct more; cbn [fst snd]; lia.
Qed.

Lemma block_loop_terminates (fuel : nat) : forall nesting h d,
  (m d < fuel)%nat ->
  (block_loop fuel nesting h d).2 <> OutOfFuel /\
  (m (block_loop fuel nesting h d).1.2 <= m d)%nat.
Proof.
  destruct m_forward as (_ & _ & _ & Hblock).
  induction fuel as [|n IH]; intros nesting h d Hlt; [lia|].
  cbn [block_loop]. destruct (Hblock d nesting) as [Hle Hlt'].
  destruct (d_NextBlock d nesting) as [more d1]. cbn [fst snd] in *.
  destruct more; [|split; [discriminate | exact Hle]].
  specialize (Hlt' eq_refl).
  pose proof (line_forward h d1) as Hl.
  destruct (line h d1) as [[h1 d2] [err|]]; cbn [fst snd] in *.
  - split; [discriminate | lia].
  - destruct (IH nesting h1 d2 ltac:(lia)) as [Hne Hm]. split; [exact Hne | lia].
Qed.

Lemma UnmarshalCaddyfile_returns (fuel : nat) : forall h d,
  (m d < fuel)%nat ->
  exists err, (UnmarshalCaddyfile fuel h d).2 = Return err.
Proof.
  destruct m_forward as (Hnext & Harg & _ & _).
  induction fuel as [|n IH]; intros h d Hlt; [lia|].
  cbn [UnmarshalCaddyfile]. destruct (Hnext d) as [_ Hlt'].
  destruct (d_Next d) as [more d1]. cbn [fst snd] in *.
  destruct more; cbn [negb]; [|now exists None].
  specialize (Hlt' eq_refl).
  pose proof (Harg d1) as Ha. destruct (d_NextArg d1) as [arg d2]. cbn [snd] in Ha.
  assert (Hl : (m (if arg then line h d2 else (h, d2, None)).1.2 <= m d2)%nat).
  { destruct arg; [apply line_forward | cbn; lia]. }
  destruct (if arg then line h d2 else (h, d2, None)) as [[h1 d3] [err|]];
    cbn [fst snd] in *; [now exists (Some err)|].
  destruct (block_loop_terminates n (d_Nesting d3) h1 d3 ltac:(lia)) as [Hne Hm].
  destruct (block_loop n (d_Nesting d3) h1 d3) as [[h2 d4] [e| |]];
    cbn [fst snd] in *.
  - now exists e.
  - apply IH. lia.
  - contradiction.
Qed.

End Forward.

(** X12.  On a dispenser whose cursor only moves forward,
    [UnmarshalCaddyfile] returns (with an error or without) once the bound
    on its loops exceeds the number of tokens left. *)
Theorem UnmarshalCaddyfile_terminates (m : Dispenser -> nat) (fuel : nat)
    (h : Handler) (d : Dispenser) :
  forward_only m ->
  (m d < fuel)%nat ->
  exists err, (UnmarshalCaddyfile fuel h d).2 = Return err.
Proof. intros Hm Hlt. now apply (UnmarshalCaddyfile_returns m Hm). Qed.

End CaddyfileExtras.

(** ** The example dispenser moves forward *)

Lemma tok_nextOnSameLine_run (d : tokens) :
  (tok_nextOnSameLine d).2 =
  if (tok_nextOnSameLine d).1 then tok_move d (S (pos d)) else d.
Proof.
  unfold tok_nextOnSameLine. destruct (pos d) eqn:Ep; [reflexivity|].
  destruct (tok_at d (S n)) as [[t1 l1]|]; [|reflexivity].
  destruct (tok_at d (S (S n))) as [[t2 l2]|]; [|reflexivity].
  now destruct (Nat.eqb l1 l2).
Qed.

Lemma tok_Val_in_range (d : tokens) :
  tok_Val d <> "" -> (1 <= pos d <= length (toks d))%nat.
Proof.
  unfold tok_Val, tok_at. destruct (pos d) as [|c]; [congruence|].
  destruct (toks d !! c) as [[t l]|] eqn:E; [|congruence].
  apply lookup_lt_Some in E. lia.
Qed.

Lemma tok_Next_forward (d : tokens) :
  (tokens_left (tok_Next d).2 <= tokens_left d)%nat /\
  ((tok_Next d).1 = true -> (tokens_left (tok_Next d).2 < tokens_left d)%nat).
Proof.
  unfold tok_Next, tokens_left.
  destruct (Nat.ltb (pos d) (length (toks d))) eqn:E; cbn.
  - apply Nat.ltb_lt in E. lia.
  - split; [lia | discriminate].
Qed.

Lemma tok_NextArg_run (d : tokens) :
  (tok_NextArg d).2 = if (tok_NextArg d).1 then tok_move d (S (pos d)) else d.
Proof.
  unfold tok_NextArg. pose proof (tok_nextOnSameLine_run d) as H.
  destruct (tok_nextOnSameLine d) as [ok d1]. cbn [fst snd] in H. subst d1.
  destruct ok; cbn [negb]; [|reflexivity].
  destruct (String.eqb (tok_Val (tok_move d (S (pos d)))) "{"); [|reflexivity].
  cbn. now destruct d.
Qed.

Lemma tok_NextArg_forward (d : tokens) :
  (tokens_left (tok_NextArg d).2 <= tokens_left d)%nat.
Proof.
  rewrite tok_NextArg_run. unfold tokens_left.
  destruct (tok_NextArg d).1; cbn; lia.
Qed.

Lemma tok_AllArgs2_forward (d : tokens) (a b : string) :
  (tokens_left (tok_AllArgs2 d a b).2 <= tokens_left d)%nat.
Proof.
  unfold tok_AllArgs2.
  pose proof (tok_NextArg_forward d) as H1.
  destruct (tok_NextArg d) as [ok1 d1]. cbn [snd] in H1.
  destruct ok1; cbn [negb snd]; [|exact H1].
  pose proof (tok_NextArg_forward d1) as H2.
  destruct (tok_NextArg d1) as [ok2 d2]. cbn [snd] in H2.
  destruct ok2; cbn [negb snd]; [|lia].
  pose proof (tok_NextArg_run d2) as H3.
  destruct (tok_NextArg d2) as [more d3]. cbn [fst snd] in H3. subst d3.
  destruct more; cbn [snd]; [|lia].
  unfold tokens_left in *. cbn. lia.
Qed.

Lemma tok_brace_step (d1 : tokens) (brace : string) :
  let r := if String.eqb (tok_Val d1) brace
           then let (same, d2) := tok_nextOnSameLine d1 in (negb same, d2)
           else (false, d1) in
  toks r.2 = toks d1 /\ (pos d1 <= pos r.2)%nat.
Proof.
  cbv zeta. destruct (String.eqb (tok_Val d1) brace); [|cbn; split; [reflexivity|lia]].
  pose proof (tok_nextOnSameLine_run d1) as H.
  destruct (tok_nextOnSameLine d1) as [same d2]. cbn [fst snd] in *. subst d2.
  destruct same; cbn; split; (reflexivity || lia).
Qed.

Lemma tok_NextBlock_forward (d : tokens) (n : Z) :
  (tokens_left (tok_NextBlock d n).2 <= tokens_left d)%nat /\
  ((tok_NextBlock d n).1 = true ->
   (tokens_left (tok_NextBlock d n).2 < tokens_left d)%nat).
Proof.
  unfold tok_NextBlock. destruct (n <? nest d).
  - destruct (tok_Next_forward d) as [Hle Hlt].
    unfold tok_Next in *.
    destruct (Nat.ltb (pos d) (length (toks d))) eqn:E; cbn [negb fst snd] in *;
      [|split; [lia | discriminate]].
    specialize (Hlt eq_refl).
    set (d1 := tok_move d (S (pos d))) in *.
    pose proof (tok_brace_step d1 "}") as Hc. cbv zeta in Hc.
    destruct (if String.eqb (tok_Val d1) "}"
              then let (same, d2) := tok_nextOnSameLine d1 in (negb same, d2)
              else (false, d1)) as [closed d2].
    cbn [snd] in Hc. destruct Hc as [Ht2 Hp2].
    assert (Hd2 : (tokens_left d2 <= tokens_left d1)%nat)
      by (unfold tokens_left; rewrite Ht2; lia).
    destruct closed.
    + cbn [fst snd]. unfold tokens_left in *. cbn [toks pos] in *.
      split; [lia | intros _; lia].
    + pose proof (tok_brace_step d2 "{") as Ho. cbv zeta in Ho.
      destruct (if String.eqb (tok_Val d2) "{"
                then let (same, d3) := tok_nextOnSameLine d2 in (negb same, d3)
                else (false, d2)) as [opened d3].
      cbn [snd] in Ho. destruct Ho as [Ht3 Hp3].
      cbn [fst snd]. unfold tokens_left in *. cbn [toks pos] in *.
      rewrite Ht3, Ht2 in *. split; [lia | intros _; lia].
  - pose proof (tok_nextOnSameLine_run d) as H.
    destruct (tok_nextOnSameLine d) as [ok d1]. cbn [fst snd] in H. subst d1.
    destruct ok; cbn [negb fst snd]; [|split; [lia | discriminate]].
    destruct (String.eqb (tok_Val (tok_move d (S (pos d)))) "{") eqn:Ev;
      cbn [negb fst snd].
    + apply String.eqb_eq in Ev.
      assert (Hr : (1 <= S (pos d) <= length (toks d))%nat).
      { apply (tok_Val_in_range (tok_move d (S (pos d)))). rewrite Ev. discriminate. }
      destruct (tok_Next_forward (tok_move d (S (pos d)))) as [Hle _].
      unfold tokens_left in *. cbn [toks pos tok_move] in *.
      destruct (String.eqb (tok_Val (tok_Next (tok_move d (S (pos d)))).2) "}");
        cbn [fst snd toks pos]; split; (lia || discriminate || (intros _; lia)).
    + unfold tokens_left. cbn. split; [lia | discriminate].
Qed.

Lemma tokens_forward_only : @forward_only TokenDispenser tokens_left.
Proof.
  repeat split.
  - apply tok_Next_forward.
  - apply tok_Next_forward.
  - intros d. apply tok_NextArg_forward.
  - intros d a b. apply tok_AllArgs2_forward.
  - apply tok_NextBlock_forward.
  - apply tok_NextBlock_forward.
Qed.

(** ** Closed examples for the further properties *)

Section ExtraExamples.
#[local] Existing Instance ExampleLib.

(** X2, on the rules [Foo -> Bar; re a+ -> b]. *)
Lemma pool_New_after_Provision_witness :
  pool_New (Provision (config [literal_rule "Foo" "Bar"; regexp_rule "a+" "b"] false)).1
  = [@mkStage StubRegexp (Literal (list_byte_of_string "Foo"))
       (list_byte_of_string "Bar") [];
     @mkStage StubRegexp (@Regex StubRegexp "a+") (list_byte_of_string "b") []].
Proof.
  refine (@pool_New_after_Provision ExampleLib
            (config [literal_rule "Foo" "Bar"; regexp_rule "a+" "b"] false) _ _).
  - repeat constructor.
  - reflexivity.
Defined.

(** X3, on the rules [Foo -> Bar; re ( -> b]: the error names rule 1 and
    does not name rule 0. *)
Lemma Provision_error_names_exactly_one_rule_witness :
  exists e,
    (Provision (config [literal_rule "Foo" "Bar"; regexp_rule "(" "b"] false)).2
      = Some e /\
    names_rule e 1 = true /\ names_rule e 0 = false.
Proof.
  destruct (@Provision_error_names_exactly_one_rule ExampleLib
              (config [literal_rule "Foo" "Bar"; regexp_rule "(" "b"] false)
              1%nat (regexp_rule "(" "b") eq_refl eq_refl eq_refl)
    as (e & He & Hn).
  exists e. split; [exact He|]. split.
  - now apply Hn.
  - destruct (names_rule e 0) eqn:E; [|reflexivity].
    apply Hn in E. discriminate E.
Defined.

(** X4, on an upstream that writes "Foo" and then fails. *)
Lemma ServeHTTP_buffered_upstream_error_witness :
  let h := (Provision (config [literal_rule "Foo" "Bar"] false)).1 in
  let next := mkNext [DoWrite (list_byte_of_string "Foo")] (Some "upstream failed") in
  let r := @ServeHTTP_pool _ BufferingRecorder h [] next empty_world in
  r.1.2 = Some "upstream failed" /\ calls r.2 = [ResetCall].
Proof.
  intros h next r. subst r.
  rewrite (@ServeHTTP_buffered_upstream_error _ BufferingRecorder
             h [] next empty_world "upstream failed" eq_refl eq_refl).
  split; reflexivity.
Defined.

(** X5, on the chain [Foo -> Ba] and an upstream that sets X-Served-By,
    declares Content-Length 3 and writes "Foo" with status 201. *)
Lemma ServeHTTP_buffered_writes_result_witness :
  let h := (Provision (config [literal_rule "Foo" "Ba"] false)).1 in
  let next := mkNext [DoHeaderSet "X-Served-By" "up"; DoHeaderSet "Content-Length" "3";
                      DoWriteHeader 201; DoWrite (list_byte_of_string "Foo")] None in
  let s' := (@ServeHTTP_pool _ BufferingRecorder h [] next empty_world).2 in
  body_of (calls s') = list_byte_of_string "Ba" /\
  statuses_of (calls s') = [201] /\
  header s' !! "X-Served-By" = Some ["up"].
Proof.
  intros h next s'.
  edestruct (@ServeHTTP_buffered_writes_result _ BufferingRecorder
               h [] next empty_world) as (Hb & Hst & Hk & _); [reflexivity..|].
  split; [exact Hb|]. split; [exact Hst|].
  subst s'. rewrite Hk by discriminate. reflexivity.
Defined.

(** X6, on an upstream that declares Content-Length 6, writes, and sets
    Content-Length again afterwards: the second value stays in the map. *)
Lemma stream_header_map_witness :
  let h := (Provision (config [literal_rule "foobar" "X"] true)).1 in
  let next := mkNext [DoHeaderSet "Content-Length" "6";
                      DoWrite (list_byte_of_string "foobar");
                      DoHeaderSet "Content-Length" "1"] None in
  header (@ServeHTTP_pool _ BufferingRecorder h [] next empty_world).2
  = {["Content-Length" := ["1"]]}.
Proof.
  intros h next.
  rewrite (@stream_header_map _ BufferingRecorder h [] next empty_world eq_refl).
  vm_compute. reflexivity.
Defined.

(** X7, on an upstream that writes "fo" and "obar" and then fails. *)
Lemma stream_passes_every_chunk_witness :
  let h := (Provision (config [literal_rule "foobar" "X"] true)).1 in
  let next := mkNext [DoWrite (list_byte_of_string "fo");
                      DoWrite (list_byte_of_string "obar")] (Some "upstream failed") in
  let r := @ServeHTTP_pool _ BufferingRecorder h [] next empty_world in
  transforms_of (calls r.2) =
    [(list_byte_of_string "fo", false); (list_byte_of_string "obar", false);
     ([], true)] /\
  r.1.2 = Some "upstream failed".
Proof.
  intros h next r.
  exact (@stream_passes_every_chunk _ BufferingRecorder h [] next empty_world eq_refl).
Defined.

(** X9, on three requests served by the handler [Foo -> Bar]: whatever
    the pool does, the three bodies are "Bar". *)
Lemma provisioned_handler_serves_witness :
  let h := config [literal_rule "Foo" "Bar"] false in
  let next := mkNext [DoWrite (list_byte_of_string "Foo")] None in
  exists h' errs s',
    @serves _ BufferingRecorder (Provision h).1 [next; next; next] empty_world
      h' errs s' /\
    errs = [None; None; None] /\
    body_of (calls s') = list_byte_of_string "BarBarBar".
Proof.
  intros h next.
  destruct (@provisioned_handler_serves _ BufferingRecorder h [next; next; next]
              empty_world eq_refl)
    as [(h' & errs & s' & Hrun) Hall].
  exists h', errs, s'. split; [exact Hrun|].
  destruct (Hall h' errs s' Hrun) as (Hfresh & _).
  vm_compute in Hfresh. injection Hfresh as -> ->. now split.
Defined.

(** X12, on the directive
    [replace stream {] / [Foo Bar] / [re a+ b] / [}]. *)
Lemma UnmarshalCaddyfile_terminates_witness :
  exists err,
    (@UnmarshalCaddyfile _ TokenDispenser 10 (mkHandler [] false None)
       (dispenser_of [("replace", 1); ("stream", 1); ("{", 1); ("Foo", 2);
                      ("Bar", 2); ("re", 3); ("a+", 3); ("b", 3); ("}", 4)]%nat)).2
    = Return err.
Proof.
  refine (@UnmarshalCaddyfile_terminates _ TokenDispenser tokens_left 10 _ _
            tokens_forward_only _).
  vm_compute. lia.
Defined.

End ExtraExamples.

(** ** The example regexp package is lawful *)


Lemma run_length_le (c : byte) (w : list byte) :
  (run_length c w <= length w)%nat.
Proof.
  induction w as [|b rest IH]; cbn [run_length length]; [lia|].
  destruct (Byte.eqb b c); lia.
Qed.


Section LookaheadExamples.
#[local] Existing Instance RunLib.


(** The lookahead at work: a run of five bytes exceeds the lookahead of
    four.  Streamed as "aaaaa", "ab" the stage gives up on the first chunk
    and replaces only the byte that follows; in one buffer the whole run is
    one match. *)
Example lookahead_exceeded :
  let h := (Provision (config [regexp_rule "a+" "X"] true)).1 in
  stream_output (pool_New h)
    [list_byte_of_string "aaaaa"; list_byte_of_string "ab"]
    = list_byte_of_string "aaaaaXb" /\
  buffered_output (pool_New h) (list_byte_of_string "aaaaaab")
    = list_byte_of_string "Xb" /\
  @chain_within_lookahead RunMatcher (pool_New h)
    (list_byte_of_string "aaaaaab") = false.
Proof. repeat split. Qed.

End LookaheadExamples.
